(** * Video-to-GIF segment editor: a shallow embedding and its properties

    The development follows the TypeScript sources:
    - [types.ts]          : [Frame], [Status], [Segment];
    - [geminiService.ts]  : [dataUrlToGeminiPart], [generateDescriptionForFrames];
    - [SegmentEditor.tsx] : [getWorkerScriptUrl] and the handlers of the editor;
    - [App.tsx]           : the list of segments and its four operations.

    JavaScript numbers that carry fractional values (times, frame ids drawn
    by [Math.random]) are IEEE-754 binary64 values, modelled by the
    standard library's [spec_float] at precision 53; array indices and
    [Date.now()] readings are integers, modelled by [Z].  A handler is a
    computation in a small monad that threads the module-level state and
    records, in order, the calls it makes to its collaborators. *)

From Stdlib Require Import ZArith List Bool String Ascii Lia.
From Stdlib Require Import Floats.SpecFloat.
Import ListNotations.

Set Implicit Arguments.

(** ** JavaScript numbers *)

Module Num.

Definition number : Type := spec_float.

Definition prec : Z := 53.
Definition emax : Z := 1024.

(** An integer literal. *)
Definition ofZ (z : Z) : number := binary_normalize prec emax z 0 false.

Definition add : number -> number -> number := SFadd prec emax.
Definition sub : number -> number -> number := SFsub prec emax.
Definition mul : number -> number -> number := SFmul prec emax.
Definition div : number -> number -> number := SFdiv prec emax.

(** [x < y], [x <= y], [x > y] and [x === y] on numbers. *)
Definition lt (x y : number) : bool := SFltb x y.
Definition le (x y : number) : bool := SFleb x y.
Definition gt (x y : number) : bool := SFltb y x.
Definition strict_eq (x y : number) : bool := SFeqb x y.

Definition isNaN (x : number) : bool :=
  match x with S754_nan => true | _ => false end.

Definition isNegZero (x : number) : bool :=
  match x with S754_zero true => true | _ => false end.

(** [Math.min(x, y)]: NaN if either argument is, and -0 is below +0. *)
Definition Math_min (x y : number) : number :=
  if isNaN x || isNaN y then S754_nan
  else if lt x y then x
  else if lt y x then y
  else if isNegZero x then x else y.

Definition zero : number := ofZ 0.
Definition one : number := ofZ 1.
Definition five : number := ofZ 5.

End Num.

Import Num.

(** ** types.ts *)

Module Frame.
Record t : Type := mk { id : number; timestamp : number; dataUrl : string }.
End Frame.

Module Status.
Inductive t : Type := idle | extracting | frames_ready | generating | done | error.

Definition eqb (a b : t) : bool :=
  match a, b with
  | idle, idle | extracting, extracting | frames_ready, frames_ready
  | generating, generating | done, done | error, error => true
  | _, _ => false
  end.
End Status.

Module TimeRange.
Record t : Type := mk { start : number; end_ : number }.
End TimeRange.

Module FrameRange.
Record t : Type := mk { start : option number; end_ : option number }.
End FrameRange.

Module Segment.
Record t : Type := mk {
  id : Z;
  timeRange : TimeRange.t;
  frames : list Frame.t;
  selectedFrameRange : FrameRange.t;
  gifDescription : string;
  status : Status.t;
  gifUrl : option string;
  error : option string
}.
End Segment.

(** ** Array primitives used by the sources *)

(** [arr.findIndex(p)]: the first index whose element satisfies [p], or -1. *)
Fixpoint findIndex_from (A : Type) (p : A -> bool) (arr : list A) (i : Z) : Z :=
  match arr with
  | [] => (-1)%Z
  | x :: rest => if p x then i else findIndex_from p rest (i + 1)%Z
  end.

Definition findIndex (A : Type) (p : A -> bool) (arr : list A) : Z :=
  findIndex_from p arr 0%Z.

(** [arr.slice(b, e)]: a negative bound counts from the end of the array and
    both bounds are clamped to [0, length]. *)
Definition slice_bound (len k : Z) : Z :=
  if (k <? 0)%Z then Z.max (len + k) 0 else Z.min k len.

Definition slice (A : Type) (arr : list A) (b e : Z) : list A :=
  let len := Z.of_nat (List.length arr) in
  let from := slice_bound len b in
  let to := slice_bound len e in
  firstn (Z.to_nat (to - from)) (skipn (Z.to_nat from) arr).

(** [s.split(sep)] for a one-character separator: never the empty array. *)
Fixpoint split (sep : ascii) (s : string) : list string :=
  match s with
  | EmptyString => [EmptyString]
  | String c s' =>
      if Ascii.eqb c sep then EmptyString :: split sep s'
      else match split sep s' with
           | [] => [String c EmptyString]
           | piece :: pieces => String c piece :: pieces
           end
  end.

(** A JavaScript string is truthy when it is not empty. *)
Definition truthy (s : string) : bool :=
  match s with EmptyString => false | _ => true end.

(** ** Collaborators, effects and the handler monad *)

(** What a [throw] or a promise rejection carries: an [Error] instance with
    its message, or some other value. *)
Inductive Thrown : Type :=
| ErrorObj (message : string)
| NotAnError.

(** How an awaited computation ends; [Pending] is one that never settles. *)
Inductive Completion (A : Type) : Type :=
| Resolved (a : A)
| Rejected (reason : Thrown)
| Pending.

Arguments Resolved {A} a.
Arguments Rejected {A} reason.
Arguments Pending {A}.

(** geminiService.ts: the image part sent to the model. *)
Record InlineData : Type := { mimeType : string; data : option string }.

(** The calls a handler makes, in the order it makes them: [loadImage src]
    is [img.src = src] on a fresh [Image], [renderGif] the [addFrame] calls
    followed by [render()] on the encoder. *)
Inductive Event : Type :=
| onUpdate (s : Segment.t)
| setDuration (d : number)
| setCurrentTime (t : number)
| fetchWorkerScript
| loadImage (src : string)
| renderGif (workerScript : string) (images : list string) (delay : number)
| generateContent (model prompt : string) (parts : list InlineData).

(** The mounted video element: its duration and the JPEG data URL the canvas
    yields once the video has been sought to a time. *)
Record Video : Type := { duration : number; capture : number -> string }.

(** Everything outside the component that its handlers consult.
    [image_loads src] tells whether an [Image] given this source fires
    [onload] (or else [onerror]); [encoder_outcome] is how the encoder's run
    ends once it was handed its frames and told to render. *)
Record World : Type := {
  videoRef : option Video;
  canvasRef : bool;
  context2d : bool;
  Math_random : nat -> number;
  fetched_worker : option string;
  image_loads : string -> bool;
  encoder_outcome : string -> list string -> number -> Completion string;
  ai_outcome : string -> string -> list InlineData -> Completion string;
  second_rejects_first : bool
}.

(** Module-level state: the cached worker script URL of SegmentEditor.tsx and
    the number of [Math.random()] draws made so far. *)
Record ModuleState : Type := { workerScriptBlobUrl : option string; draws : nat }.

Record Outcome (A : Type) : Type := {
  completion : Completion A;
  final : ModuleState;
  trace : list Event
}.

Definition M (A : Type) : Type := World -> ModuleState -> Outcome A.

Definition ret (A : Type) (a : A) : M A :=
  fun _ st => {| completion := Resolved a; final := st; trace := [] |}.

Definition bind (A B : Type) (m : M A) (k : A -> M B) : M B :=
  fun w st =>
    let r := m w st in
    match completion r with
    | Resolved a =>
        let r' := k a w (final r) in
        {| completion := completion r'; final := final r';
           trace := trace r ++ trace r' |}
    | Rejected e => {| completion := Rejected e; final := final r; trace := trace r |}
    | Pending => {| completion := Pending; final := final r; trace := trace r |}
    end.

Declare Scope handler_scope.
Delimit Scope handler_scope with handler.
Notation "x <- m ;; k" := (bind m (fun x => k))
  (at level 61, m at next level, right associativity) : handler_scope.
Notation "m ;; k" := (bind m (fun _ => k))
  (at level 61, right associativity) : handler_scope.
Local Open Scope handler_scope.

Definition emit (e : Event) : M unit :=
  fun _ st => {| completion := Resolved tt; final := st; trace := [e] |}.

Definition throw (A : Type) (e : Thrown) : M A :=
  fun _ st => {| completion := Rejected e; final := st; trace := [] |}.

Definition never (A : Type) : M A :=
  fun _ st => {| completion := Pending; final := st; trace := [] |}.

Arguments throw {A} e.
Arguments never {A}.

Definition settle (A : Type) (c : Completion A) : M A :=
  fun _ st => {| completion := c; final := st; trace := [] |}.

Definition ask : M World :=
  fun w st => {| completion := Resolved w; final := st; trace := [] |}.

Definition get : M ModuleState :=
  fun _ st => {| completion := Resolved st; final := st; trace := [] |}.

Definition put (st : ModuleState) : M unit :=
  fun _ _ => {| completion := Resolved tt; final := st; trace := [] |}.

(** [try { body } catch (error) { handler }]. *)
Definition try_catch (A : Type) (body : M A) (handler : Thrown -> M A) : M A :=
  fun w st =>
    let r := body w st in
    match completion r with
    | Rejected e =>
        let r' := handler e w (final r) in
        {| completion := completion r'; final := final r';
           trace := trace r ++ trace r' |}
    | _ => r
    end.

(** [await Promise.all([p, q])] for two promises that are both already
    started: the pair when both resolve, otherwise the reason of the promise
    that rejects first. *)
Definition Promise_all (A B : Type) (p : M A) (q : M B) : M (A * B) :=
  fun w st =>
    let rp := p w st in
    let rq := q w (final rp) in
    {| completion :=
         match completion rp, completion rq with
         | Resolved a, Resolved b => Resolved (a, b)
         | Rejected e1, Rejected e2 =>
             Rejected (if second_rejects_first w then e2 else e1)
         | Rejected e1, _ => Rejected e1
         | _, Rejected e2 => Rejected e2
         | _, _ => Pending
         end;
       final := final rq;
       trace := trace rp ++ trace rq |}.

(** [Math.random()]: the next draw of the world's stream. *)
Definition random : M number :=
  fun w st =>
    {| completion := Resolved (Math_random w (draws st));
       final := {| workerScriptBlobUrl := workerScriptBlobUrl st;
                   draws := S (draws st) |};
       trace := [] |}.

(** The segments passed to [onUpdate], in order. *)
Fixpoint updates (tr : list Event) : list Segment.t :=
  match tr with
  | [] => []
  | onUpdate s :: rest => s :: updates rest
  | _ :: rest => updates rest
  end.

(** ** geminiService.ts *)

Definition TypeError_split : Thrown :=
  ErrorObj "Cannot read properties of undefined (reading 'split')".

Definition dataUrlToGeminiPart (dataUrl : string) : Thrown + InlineData :=
  let pieces := split "," dataUrl in
  let header := nth 0 pieces EmptyString in
  let data := nth_error pieces 1 in
  match nth_error (split ":" header) 1 with
  | None => inl TypeError_split
  | Some rest =>
      inr {| mimeType := nth 0 (split ";" rest) EmptyString; data := data |}
  end.

(** [frameDataUrls.map(dataUrlToGeminiPart)]: the first throw aborts the map. *)
Fixpoint imageParts (frameDataUrls : list string) : Thrown + list InlineData :=
  match frameDataUrls with
  | [] => inr []
  | url :: rest =>
      match dataUrlToGeminiPart url with
      | inl e => inl e
      | inr part =>
          match imageParts rest with
          | inl e => inl e
          | inr parts => inr (part :: parts)
          end
      end
  end.

Definition gemini_model : string := "gemini-2.5-flash".

Definition gemini_prompt : string :=
  "These are sequential frames from a video. Describe the short action sequence depicted in these frames as if you were describing an animated GIF. Be concise, vivid, and focus on the main action. Start your description directly, without any preamble like 'This GIF shows...'".

Definition generateDescriptionForFrames (frameDataUrls : list string) : M string :=
  match imageParts frameDataUrls with
  | inl e => throw e
  | inr parts =>
      try_catch
        (emit (generateContent gemini_model gemini_prompt parts) ;;
         w <- ask ;;
         settle (ai_outcome w gemini_model gemini_prompt parts))
        (fun _ => throw (ErrorObj "The AI model failed to generate a description."))
  end.

(** ** SegmentEditor.tsx *)

Definition FRAMES_PER_SECOND : number := ofZ 10.

Definition worker_cdn_url : string :=
  "https://cdn.jsdelivr.net/npm/gif.js@0.2.0/dist/gif.worker.js".

(** The [try] block of [getWorkerScriptUrl] and its fallback: the blob URL
    is cached when the fetch succeeds, the CDN URL is returned otherwise. *)
Definition fetchWorkerScriptUrl : M string :=
  emit fetchWorkerScript ;;
  w <- ask ;;
  match fetched_worker w with
  | Some blobUrl =>
      st <- get ;;
      put {| workerScriptBlobUrl := Some blobUrl; draws := draws st |} ;;
      ret blobUrl
  | None => ret worker_cdn_url
  end.

Definition getWorkerScriptUrl : M string :=
  st <- get ;;
  match workerScriptBlobUrl st with
  | Some url => if truthy url then ret url else fetchWorkerScriptUrl
  | None => fetchWorkerScriptUrl
  end.

(** [{...segment, timeRange: r}] *)
Definition with_timeRange (segment : Segment.t) (r : TimeRange.t) : Segment.t :=
  Segment.mk (Segment.id segment) r
    (Segment.frames segment) (Segment.selectedFrameRange segment)
    (Segment.gifDescription segment) (Segment.status segment)
    (Segment.gifUrl segment) (Segment.error segment).

Definition handleLoadedMetadata (segment : Segment.t) : M unit :=
  w <- ask ;;
  match videoRef w with
  | Some video =>
      emit (setDuration (duration video)) ;;
      if strict_eq (TimeRange.end_ (Segment.timeRange segment)) one then
        emit (onUpdate
          (with_timeRange segment
             (TimeRange.mk zero (Math_min five (duration video)))))
      else ret tt
  | None => ret tt
  end.

Inductive RangePart : Type := part_start | part_end.

(** [if (videoRef.current) videoRef.current.currentTime = value] *)
Definition seek_if_mounted (value : number) : M unit :=
  w <- ask ;;
  match videoRef w with
  | Some _ => emit (setCurrentTime value)
  | None => ret tt
  end.

(** [value] is [parseFloat(e.target.value)]. *)
Definition handleRangeChange (value : number) (part : RangePart)
    (segment : Segment.t) : M unit :=
  let start := TimeRange.start (Segment.timeRange segment) in
  let end_ := TimeRange.end_ (Segment.timeRange segment) in
  (match part with
   | part_start =>
       if lt value end_ then
         emit (onUpdate (with_timeRange segment (TimeRange.mk value end_))) ;;
         seek_if_mounted value
       else ret tt
   | part_end => ret tt
   end) ;;
  (match part with
   | part_end =>
       if gt value start then
         emit (onUpdate (with_timeRange segment (TimeRange.mk start value))) ;;
         seek_if_mounted value
       else ret tt
   | part_start => ret tt
   end).

Definition interval : number := div one FRAMES_PER_SECOND.

(** The [for] loop of [extractFrames].  Every seek is taken to settle, and the
    frame pushed on [seeked] carries the next [Math.random()] draw, the loop
    variable and the still captured at that time.  [fuel] bounds the number
    of loop tests; a loop that needs more never settles. *)
Fixpoint sampleLoop (fuel : nat) (video : Video) (time end_ : number)
    (extractedFrames : list Frame.t) : M (list Frame.t) :=
  match fuel with
  | O => never
  | S fuel' =>
      if le time end_ then
        emit (setCurrentTime time) ;;
        id <- random ;;
        sampleLoop fuel' video (add time interval) end_
          (extractedFrames ++ [Frame.mk id time (capture video time)])
      else ret extractedFrames
  end.

(** [{...segment, status: 'extracting', frames: [],
      selectedFrameRange: {start: null, end: null}, gifDescription: ''}] *)
Definition extractionStarted (segment : Segment.t) : Segment.t :=
  Segment.mk (Segment.id segment) (Segment.timeRange segment)
    [] (FrameRange.mk None None) EmptyString Status.extracting
    (Segment.gifUrl segment) (Segment.error segment).

(** [{...segment, frames: extractedFrames, status: 'frames_ready'}] *)
Definition extractionFinished (segment : Segment.t)
    (extractedFrames : list Frame.t) : Segment.t :=
  Segment.mk (Segment.id segment) (Segment.timeRange segment)
    extractedFrames (Segment.selectedFrameRange segment)
    (Segment.gifDescription segment) Status.frames_ready
    (Segment.gifUrl segment) (Segment.error segment).

Definition extractFrames (fuel : nat) (segment : Segment.t) : M unit :=
  w <- ask ;;
  match videoRef w, canvasRef w with
  | Some video, true =>
      emit (onUpdate (extractionStarted segment)) ;;
      if context2d w then
        extractedFrames <-
          sampleLoop fuel video
            (TimeRange.start (Segment.timeRange segment))
            (TimeRange.end_ (Segment.timeRange segment)) [] ;;
        emit (onUpdate (extractionFinished segment extractedFrames))
      else ret tt
  | _, _ => ret tt
  end.

(** [{...segment, selectedFrameRange: r}] *)
Definition with_selectedFrameRange (segment : Segment.t) (r : FrameRange.t)
    : Segment.t :=
  Segment.mk (Segment.id segment) (Segment.timeRange segment)
    (Segment.frames segment) r
    (Segment.gifDescription segment) (Segment.status segment)
    (Segment.gifUrl segment) (Segment.error segment).

(** [frames.findIndex(f => f.id === frameId)] *)
Definition indexOfFrame (frames : list Frame.t) (frameId : number) : Z :=
  findIndex (fun f => strict_eq (Frame.id f) frameId) frames.

Definition handleFrameSelection (frameId : number) (segment : Segment.t) : M unit :=
  let sel := Segment.selectedFrameRange segment in
  match FrameRange.start sel with
  | None =>
      emit (onUpdate
        (with_selectedFrameRange segment (FrameRange.mk (Some frameId) None)))
  | Some start =>
      match FrameRange.end_ sel with
      | None =>
          let startIndex := indexOfFrame (Segment.frames segment) start in
          let newIndex := indexOfFrame (Segment.frames segment) frameId in
          if (newIndex <? startIndex)%Z then
            emit (onUpdate
              (with_selectedFrameRange segment
                 (FrameRange.mk (Some frameId) (Some start))))
          else
            emit (onUpdate
              (with_selectedFrameRange segment
                 (FrameRange.mk (Some start) (Some frameId))))
      | Some _ =>
          emit (onUpdate
            (with_selectedFrameRange segment (FrameRange.mk (Some frameId) None)))
      end
  end.

(** The frames [generateGif] exports for a selection with both ends set. *)
Definition selectedFrames (segment : Segment.t) (start end_ : number)
    : list Frame.t :=
  let startIndex := indexOfFrame (Segment.frames segment) start in
  let endIndex := indexOfFrame (Segment.frames segment) end_ in
  slice (Segment.frames segment)
    (Z.min startIndex endIndex) (Z.max startIndex endIndex + 1)%Z.

Definition frame_delay : number := div (ofZ 1000) FRAMES_PER_SECOND.

Fixpoint emitEach (es : list Event) : M unit :=
  match es with
  | [] => ret tt
  | e :: rest => emit e ;; emitEach rest
  end.

(** The error of [img.onerror]: the rejection carries an [Event]. *)
Definition image_error : Thrown :=
  ErrorObj "Failed to load frame image: [object Event]".

(** How the promise built in [generateGif] settles: when every frame image
    loads, as the encoder's run does; as soon as one does not, with the
    image error. *)
Definition gif_outcome (w : World) (workerScriptUrl : string)
    (images : list string) (delay : number) : Completion string :=
  if forallb (image_loads w) images
  then encoder_outcome w workerScriptUrl images delay
  else Rejected image_error.

(** What the promise does once the images have settled.  When all of them
    loaded, [Promise.all(imageLoadPromises)] resolves: the images are added
    to the encoder in order, each with the frame delay, and [render] is
    called; the promise then settles as the encoder's run does.  When one
    of them fired [onerror], the promise is rejected and the encoder is
    handed nothing. *)
Definition encodeLoaded (workerScriptUrl : string) (images : list string)
    : M string :=
  w <- ask ;;
  if forallb (image_loads w) images then
    emit (renderGif workerScriptUrl images frame_delay) ;;
    settle (encoder_outcome w workerScriptUrl images frame_delay)
  else throw image_error.

(** [new Promise(...)] in [generateGif]: the executor runs at once and gives
    every selected frame an [Image] whose source is the frame's data URL;
    the rest happens when the images have settled. *)
Definition gifPromise (workerScriptUrl : string) (frames : list Frame.t)
    : M (M string) :=
  emitEach (map loadImage (map Frame.dataUrl frames)) ;;
  ret (encodeLoaded workerScriptUrl (map Frame.dataUrl frames)).

(** The call of an [async] function whose body makes its calls before it
    first waits: the calls happen now, the promise it returns settles later
    without any further call. *)
Definition called (A : Type) (body : M A) : M (M A) :=
  fun w st =>
    let r := body w st in
    {| completion := Resolved (settle (completion r));
       final := final r;
       trace := trace r |}.

Definition errorMessage (error : Thrown) : string :=
  match error with
  | ErrorObj message => message
  | NotAnError => "An unknown error occurred."
  end.

(** [{...segment, status: 'generating', gifUrl: undefined, error: undefined}] *)
Definition generationStarted (segment : Segment.t) : Segment.t :=
  Segment.mk (Segment.id segment) (Segment.timeRange segment)
    (Segment.frames segment) (Segment.selectedFrameRange segment)
    (Segment.gifDescription segment) Status.generating None None.

(** [{...segment, gifDescription: description, gifUrl, status: 'done'}] *)
Definition generationDone (segment : Segment.t) (gifUrl description : string)
    : Segment.t :=
  Segment.mk (Segment.id segment) (Segment.timeRange segment)
    (Segment.frames segment) (Segment.selectedFrameRange segment)
    description Status.done (Some gifUrl) (Segment.error segment).

(** [{...segment, status: 'error',
      error: `Failed to generate GIF. ${errorMessage}`}] *)
Definition generationFailed (segment : Segment.t) (error : Thrown) : Segment.t :=
  Segment.mk (Segment.id segment) (Segment.timeRange segment)
    (Segment.frames segment) (Segment.selectedFrameRange segment)
    (Segment.gifDescription segment) Status.error (Segment.gifUrl segment)
    (Some (String.append "Failed to generate GIF. " (errorMessage error))).

(** The body of the [try] block, for the frames to export.  The images are
    created while the promise is built, the caption request is made next,
    and the encoder is fed when the images have loaded.  The trace lists
    what the two promises do before the update that ends the run; when the
    caption promise rejects while images are still loading, the encoder is
    in fact fed after that update. *)
Definition encodeAndDescribe (segment : Segment.t) (chosen : list Frame.t)
    : M unit :=
  workerScriptUrl <- getWorkerScriptUrl ;;
  gif <- gifPromise workerScriptUrl chosen ;;
  description <- called (generateDescriptionForFrames (map Frame.dataUrl chosen)) ;;
  both <- Promise_all gif description ;;
  emit (onUpdate (generationDone segment (fst both) (snd both))).

Definition generateGif (segment : Segment.t) : M unit :=
  let sel := Segment.selectedFrameRange segment in
  match FrameRange.start sel, FrameRange.end_ sel with
  | Some start, Some end_ =>
      emit (onUpdate (generationStarted segment)) ;;
      try_catch
        (encodeAndDescribe segment (selectedFrames segment start end_))
        (fun error => emit (onUpdate (generationFailed segment error)))
  | _, _ => ret tt
  end.

(** The [disabled] attributes of the two buttons. *)
Definition extractDisabled (segment : Segment.t) : bool :=
  Status.eqb (Segment.status segment) Status.extracting.

Definition generateDisabled (segment : Segment.t) : bool :=
  match FrameRange.start (Segment.selectedFrameRange segment),
        FrameRange.end_ (Segment.selectedFrameRange segment) with
  | Some _, Some _ => Status.eqb (Segment.status segment) Status.generating
  | _, _ => true
  end.

(** ** App.tsx *)

(** The segment both [handleVideoUpload] and [addSegment] create; [now] is
    the reading of [Date.now()]. *)
Definition newSegment (now : Z) : Segment.t :=
  Segment.mk now (TimeRange.mk zero one) [] (FrameRange.mk None None)
    EmptyString Status.idle None None.

Definition handleVideoUpload (now : Z) : list Segment.t := [newSegment now].

Definition addSegment (now : Z) (prev : list Segment.t) : list Segment.t :=
  prev ++ [newSegment now].

Definition updateSegment (updatedSegment : Segment.t) (prev : list Segment.t)
    : list Segment.t :=
  map (fun s => if (Segment.id s =? Segment.id updatedSegment)%Z
                then updatedSegment else s) prev.

Definition removeSegment (id : Z) (prev : list Segment.t) : list Segment.t :=
  filter (fun s => negb (Segment.id s =? id)%Z) prev.

(** The list of segments after the [onUpdate] calls of a trace. *)
Definition dispatch (tr : list Event) (segments : list Segment.t)
    : list Segment.t :=
  fold_left (fun segs u => updateSegment u segs) (updates tr) segments.

(** ** The editor as a transition system *)

(** The user actions and browser events an editor reacts to. *)
Inductive Action : Type :=
| LoadedMetadata
| RangeChange (value : number) (part : RangePart)
| ExtractFrames (fuel : nat)
| FrameSelection (frameId : number)
| GenerateGif.

Definition perform (a : Action) (segment : Segment.t) : M unit :=
  match a with
  | LoadedMetadata => handleLoadedMetadata segment
  | RangeChange value part => handleRangeChange value part segment
  | ExtractFrames fuel => extractFrames fuel segment
  | FrameSelection frameId => handleFrameSelection frameId segment
  | GenerateGif => generateGif segment
  end.

(** The segment an editor holds once every [onUpdate] of a handler run has
    been dispatched. *)
Definition after (r : Outcome unit) (segment : Segment.t) : Segment.t :=
  last (updates (trace r)) segment.

(** The values the [segment] prop of an editor can take: the segment as
    created, and every argument of an [onUpdate] call made by a handler that
    closed over an earlier value of the prop.  [ok] restricts the worlds the
    handlers run in. *)
Inductive reachable (ok : World -> Prop) (now : Z) : Segment.t -> Prop :=
| reach_created : reachable ok now (newSegment now)
| reach_updated : forall s a w st u,
    reachable ok now s -> ok w ->
    In u (updates (trace (perform a s w st))) ->
    reachable ok now u.

Definition validRange (r : TimeRange.t) : Prop :=
  lt (TimeRange.start r) (TimeRange.end_ r) = true.

Definition positiveDuration (w : World) : Prop :=
  match videoRef w with
  | Some video => lt zero (duration video) = true
  | None => True
  end.

(** The value of the loop variable of [extractFrames] at its [k]-th test:
    [k] successive binary64 additions of [interval] to [t]. *)
Fixpoint accumulated (k : nat) (t : number) : number :=
  match k with
  | O => t
  | S k' => accumulated k' (add t interval)
  end.

(** The frame pushed by iteration [k] of a loop that started at [t] after
    [d] earlier draws of [Math.random()]. *)
Definition sampled (w : World) (video : Video) (d : nat) (t : number)
    (k : nat) : Frame.t :=
  Frame.mk (Math_random w (k + d)) (accumulated k t)
    (capture video (accumulated k t)).

(** ** Sample data *)

Definition jpeg (n : string) : string :=
  String.append "data:image/jpeg;base64,/9j/" n.

(** A video whose stills differ at 0 s, at 0.1 s and later on. *)
Definition stills (t : number) : string :=
  if strict_eq t zero then jpeg "AAAA"
  else if strict_eq t interval then jpeg "BBBB"
  else jpeg "CCCC".

Definition clip (d : number) : Video := {| duration := d; capture := stills |}.

(** A world with the canvas mounted, whose random source draws 1/1024,
    2/1024, ..., where every image loads and whose services settle as
    given. *)
Definition studio (video : option Video) (context : bool)
    (gif ai : Completion string) : World :=
  {| videoRef := video;
     canvasRef := true;
     context2d := context;
     Math_random := fun k => div (ofZ (Z.of_nat k + 1)) (ofZ 1024);
     fetched_worker := Some "blob:worker"%string;
     image_loads := fun _ => true;
     encoder_outcome := fun _ _ _ => gif;
     ai_outcome := fun _ _ _ => ai;
     second_rejects_first := false |}.

(** A world where everything is at hand and both services succeed. *)
Definition sunny : World :=
  studio (Some (clip five)) true (Resolved "blob:old"%string)
    (Resolved "A cat jumps."%string).

Definition fresh : ModuleState := {| workerScriptBlobUrl := None; draws := 0 |}.

(** A freshly created segment; its time range is 0 .. 1. *)
Definition created : Segment.t := newSegment 1700000000000%Z.

Definition quarter : number := div one (ofZ 4).

Definition frame1 : Frame.t :=
  Frame.mk (div (ofZ 1) (ofZ 1024)) zero (jpeg "AAAA").
Definition frame2 : Frame.t :=
  Frame.mk (div (ofZ 2) (ofZ 1024)) interval (jpeg "BBBB").
Definition frame3 : Frame.t :=
  Frame.mk (div (ofZ 3) (ofZ 1024)) (add interval interval) (jpeg "CCCC").

(** The segment after the range was set to 0 .. 0.25, its three frames were
    extracted and the first two were clicked. *)
Definition picked : Segment.t :=
  Segment.mk 1700000000000%Z (TimeRange.mk zero quarter) [frame1; frame2; frame3]
    (FrameRange.mk (Some (Frame.id frame1)) (Some (Frame.id frame2)))
    EmptyString Status.frames_ready None None.

(** [picked] after a generation that succeeded, and after one that failed. *)
Definition finished : Segment.t := generationDone picked "blob:old" "A cat jumps.".

Definition failed : Segment.t :=
  generationFailed picked
    (ErrorObj "The AI model failed to generate a description.").

(** The timestamps pushed for the range 0 .. 1, as binary64 values:
    0, 0.1, 0.2, 0.30000000000000004, 0.4, 0.5, 0.6, 0.7,
    0.7999999999999999, 0.8999999999999999, 0.9999999999999999. *)
Definition unit_range_timestamps : list number :=
  [ S754_zero false;
    S754_finite false 7205759403792794 (-56);
    S754_finite false 7205759403792794 (-55);
    S754_finite false 5404319552844596 (-54);
    S754_finite false 7205759403792794 (-54);
    S754_finite false 4503599627370496 (-53);
    S754_finite false 5404319552844595 (-53);
    S754_finite false 6305039478318694 (-53);
    S754_finite false 7205759403792793 (-53);
    S754_finite false 8106479329266892 (-53);
    S754_finite false 9007199254740991 (-53) ].

(** The segment an editor holds after a click on the frame [frameId]. *)
Definition selectFrame (w : World) (st : ModuleState) (frameId : number)
    (segment : Segment.t) : Segment.t :=
  after (handleFrameSelection frameId segment w st) segment.

(** How the caption promise settles for the given data URLs. *)
Definition captionOutcome (w : World) (urls : list string) : Completion string :=
  match imageParts urls with
  | inl e => Rejected e
  | inr parts =>
      match ai_outcome w gemini_model gemini_prompt parts with
      | Resolved text => Resolved text
      | Rejected _ =>
          Rejected (ErrorObj "The AI model failed to generate a description.")
      | Pending => Pending
      end
  end.

(** How [await Promise.all([gifPromise, descriptionPromise])] settles when
    the encoder is handed the worker script [ws]. *)
Definition joinOutcome (w : World) (ws : string) (chosen : list Frame.t)
    : Completion (string * string) :=
  match gif_outcome w ws (map Frame.dataUrl chosen) frame_delay,
        captionOutcome w (map Frame.dataUrl chosen) with
  | Resolved url, Resolved text => Resolved (url, text)
  | Rejected e1, Rejected e2 =>
      Rejected (if second_rejects_first w then e2 else e1)
  | Rejected e1, _ => Rejected e1
  | _, Rejected e2 => Rejected e2
  | _, _ => Pending
  end.

(** The worker script URL [getWorkerScriptUrl] resolves with. *)
Definition workerScriptOf (w : World) (st : ModuleState) : string :=
  match completion (getWorkerScriptUrl w st) with
  | Resolved ws => ws
  | _ => worker_cdn_url
  end.

(** What the encoder is handed: the images, once, when all of them loaded;
    nothing otherwise. *)
Definition rendering (w : World) (ws : string) (images : list string)
    : list Event :=
  if forallb (image_loads w) images
  then [renderGif ws images frame_delay] else [].

(** The calls of the caption service for the given data URLs. *)
Definition captioning (urls : list string) : list Event :=
  match imageParts urls with
  | inl _ => []
  | inr parts => [generateContent gemini_model gemini_prompt parts]
  end.

(** What [generateGif] ends with, after its calls. *)
Definition conclusion (segment : Segment.t) (join : Completion (string * string))
    : list Event :=
  match join with
  | Resolved both => [onUpdate (generationDone segment (fst both) (snd both))]
  | Rejected e => [onUpdate (generationFailed segment e)]
  | Pending => []
  end.

(** Whether no two of the numbers are [===]. *)
Fixpoint pairwise_distinct (l : list number) : bool :=
  match l with
  | [] => true
  | x :: rest =>
      forallb (fun y => negb (strict_eq x y) && negb (strict_eq y x)) rest
      && pairwise_distinct rest
  end.

(** [emits P m]: every segment [m] passes to [onUpdate] satisfies [P]. *)
Definition emits (P : Segment.t -> Prop) (A : Type) (m : M A) : Prop :=
  forall w st, Forall P (updates (trace (m w st))).

(** What a handler may do to the identity and the time range of the segment
    it closed over. *)
Definition keeps_id (segment u : Segment.t) : Prop :=
  Segment.id u = Segment.id segment.

(** ** Further parts of the sources *)

(** SegmentEditor.tsx: the class names [getFrameClassName] gives a frame. *)
Definition class_plain : string := "opacity-70 hover:opacity-100".
Definition class_anchor : string := "ring-4 ring-cyan-400 opacity-100".
Definition class_inside : string := "ring-2 ring-indigo-500 opacity-100".
Definition class_outside : string := "opacity-50 hover:opacity-80".

Definition getFrameClassName (frameId : number) (segment : Segment.t) : string :=
  let sel := Segment.selectedFrameRange segment in
  match FrameRange.start sel with
  | None => class_plain
  | Some start =>
      let frameIndex := indexOfFrame (Segment.frames segment) frameId in
      match FrameRange.end_ sel with
      | None => if strict_eq frameId start then class_anchor else class_plain
      | Some end_ =>
          let startIndex := indexOfFrame (Segment.frames segment) start in
          let endIndex := indexOfFrame (Segment.frames segment) end_ in
          if ((Z.min startIndex endIndex <=? frameIndex)%Z
              && (frameIndex <=? Z.max startIndex endIndex)%Z)%bool
          then class_inside else class_outside
      end
  end.

(** App.tsx: [canRemove={segments.length > 1}]. *)
Definition canRemove (segments : list Segment.t) : bool :=
  (1 <? List.length segments)%nat.

(** VideoUploader.tsx: a dropped or picked file, and the file each handler
    passes to [onVideoUpload], if any.  [files] is the event's file list
    (empty when it is missing). *)
Module VideoUploader.

Record File : Type := { name : string; type : string }.

Definition handleFileChange (files : list File) : option File :=
  hd_error files.

Definition handleDrop (files : list File) : option File :=
  match hd_error files with
  | Some file => if String.prefix "video/" (type file) then Some file else None
  | None => None
  end.

End VideoUploader.

(** The times the video is sought to, in order. *)
Fixpoint seeks (tr : list Event) : list number :=
  match tr with
  | [] => []
  | setCurrentTime t :: rest => t :: seeks rest
  | _ :: rest => seeks rest
  end.

(** Whether the character [c] occurs in [s]. *)
Fixpoint occurs (c : ascii) (s : string) : bool :=
  match s with
  | EmptyString => false
  | String c' s' => Ascii.eqb c' c || occurs c s'
  end.

(** The frames [generateGif] would export for a segment: none is exported
    unless both ends of the selection are set. *)
Definition exportOf (segment : Segment.t) : option (list Frame.t) :=
  match FrameRange.start (Segment.selectedFrameRange segment),
        FrameRange.end_ (Segment.selectedFrameRange segment) with
  | Some start, Some end_ => Some (selectedFrames segment start end_)
  | _, _ => None
  end.

(** The segment an editor holds after the metadata of its video loaded. *)
Definition loaded (w : World) (st : ModuleState) (segment : Segment.t)
    : Segment.t :=
  after (handleLoadedMetadata segment w st) segment.

(** What the render relies on in a segment: an animation to show when it is
    [done], a message to show when it is [error], and nothing derived yet
    while it is [idle]. *)
Definition coherent (s : Segment.t) : Prop :=
  (Segment.status s = Status.done -> exists url, Segment.gifUrl s = Some url)
  /\ (Segment.status s = Status.error ->
      exists e, Segment.error s
                = Some (String.append "Failed to generate GIF. " (errorMessage e)))
  /\ (Segment.status s = Status.idle ->
      Segment.frames s = [] /\ Segment.gifUrl s = None
      /\ Segment.error s = None /\ Segment.gifDescription s = EmptyString).

(** * Properties *)

(** ** Traces of the monad's operations *)

Lemma updates_app : forall tr1 tr2,
  updates (tr1 ++ tr2) = updates tr1 ++ updates tr2.
Proof.
  induction tr1 as [|e tr1 IH]; intros tr2; [reflexivity|].
  destruct e; simpl; rewrite IH; reflexivity.
Qed.

Lemma emits_ret : forall P A (a : A), emits P (ret a).
Proof. intros P A a w st; constructor. Qed.

Lemma emits_throw : forall P A e, emits P (@throw A e).
Proof. intros P A e w st; constructor. Qed.

Lemma emits_never : forall P A, emits P (@never A).
Proof. intros P A w st; constructor. Qed.

Lemma emits_settle : forall P A (c : Completion A), emits P (settle c).
Proof. intros P A c w st; constructor. Qed.

Lemma emits_ask : forall P, emits P ask.
Proof. intros P w st; constructor. Qed.

Lemma emits_get : forall P, emits P get.
Proof. intros P w st; constructor. Qed.

Lemma emits_put : forall P st', emits P (put st').
Proof. intros P st' w st; constructor. Qed.

Lemma emits_random : forall P, emits P random.
Proof. intros P w st; constructor. Qed.

Lemma emits_onUpdate : forall (P : Segment.t -> Prop) s,
  P s -> emits P (emit (onUpdate s)).
Proof. intros P s Hs w st; simpl; constructor; [assumption | constructor]. Qed.

Lemma emits_silent : forall P e,
  (forall s, e <> onUpdate s) -> emits P (emit e).
Proof.
  intros P e Hne w st; destruct e; simpl; try (now constructor).
  exfalso; eapply Hne; reflexivity.
Qed.

Lemma emits_bind : forall P A B (m : M A) (k : A -> M B),
  emits P m -> (forall a, emits P (k a)) -> emits P (bind m k).
Proof.
  intros P A B m k Hm Hk w st; unfold bind.
  specialize (Hm w st).
  destruct (completion (m w st)) as [a| |]; simpl; try assumption.
  rewrite updates_app; apply Forall_app; split; [assumption | apply Hk].
Qed.

Lemma emits_try_catch : forall P A (body : M A) handler,
  emits P body -> (forall e, emits P (handler e)) ->
  emits P (try_catch body handler).
Proof.
  intros P A body handler Hb Hh w st; unfold try_catch.
  specialize (Hb w st).
  destruct (completion (body w st)) as [a|e|]; simpl; try assumption.
  rewrite updates_app; apply Forall_app; split; [assumption | apply Hh].
Qed.

Lemma emits_Promise_all : forall P A B (p : M A) (q : M B),
  emits P p -> emits P q -> emits P (Promise_all p q).
Proof.
  intros P A B p q Hp Hq w st; unfold Promise_all; simpl.
  rewrite updates_app; apply Forall_app; split; [apply Hp | apply Hq].
Qed.

Create HintDb emits.
#[local] Hint Resolve emits_ret emits_throw emits_never emits_settle emits_ask
  emits_get emits_put emits_random emits_Promise_all : emits.
#[local] Hint Extern 2 (emits _ (emit (onUpdate _))) =>
  apply emits_onUpdate : emits.
#[local] Hint Extern 2 (emits _ (emit _)) =>
  apply emits_silent; discriminate : emits.
#[local] Hint Extern 3 (emits _ (bind _ _)) =>
  apply emits_bind; [| intros ?] : emits.
#[local] Hint Extern 3 (emits _ (try_catch _ _)) =>
  apply emits_try_catch; [| intros ?] : emits.

(** ** The sample segments are reached by the handlers *)

Lemma picked_reachable :
  reachable (fun _ => True) 1700000000000%Z picked.
Proof.
  pose (trimmed := with_timeRange created (TimeRange.mk zero quarter)).
  pose (extracted := extractionFinished trimmed [frame1; frame2; frame3]).
  pose (clicked := with_selectedFrameRange extracted
                     (FrameRange.mk (Some (Frame.id frame1)) None)).
  apply (@reach_updated _ _ clicked (FrameSelection (Frame.id frame2)) sunny fresh);
    [|exact I|vm_compute; left; reflexivity].
  apply (@reach_updated _ _ extracted (FrameSelection (Frame.id frame1)) sunny fresh);
    [|exact I|vm_compute; left; reflexivity].
  apply (@reach_updated _ _ trimmed (ExtractFrames 12) sunny fresh);
    [|exact I|vm_compute; right; left; reflexivity].
  apply (@reach_updated _ _
           (with_timeRange created (TimeRange.mk zero five))
           (RangeChange quarter part_end) sunny fresh);
    [|exact I|vm_compute; left; reflexivity].
  apply (@reach_updated _ _ created LoadedMetadata sunny fresh);
    [|exact I|vm_compute; left; reflexivity].
  apply reach_created.
Qed.

Lemma finished_reachable :
  reachable (fun _ => True) 1700000000000%Z finished.
Proof.
  apply (@reach_updated _ _ picked GenerateGif sunny fresh);
    [exact picked_reachable | exact I | vm_compute; right; left; reflexivity].
Qed.

Lemma failed_reachable :
  reachable (fun _ => True) 1700000000000%Z failed.
Proof.
  apply (@reach_updated _ _ picked GenerateGif
           (studio (Some (clip five)) true (Resolved "blob:old"%string)
              (Rejected NotAnError)) fresh);
    [exact picked_reachable | exact I | vm_compute; right; left; reflexivity].
Qed.

Lemma last_default : forall A (l : list A) x d,
  last (x :: l) d = last l x.
Proof.
  induction l as [|y l IH]; intros x d; [reflexivity|].
  change (last (x :: y :: l) d) with (last (y :: l) d).
  rewrite (IH y d), (IH y x). reflexivity.
Qed.

(** Dispatching the updates of a handler to the list that holds just its
    segment leaves the last segment passed on. *)
Lemma dispatch_own_updates : forall us segment,
  Forall (keeps_id segment) us ->
  fold_left (fun segs u => updateSegment u segs) us [segment]
  = [last us segment].
Proof.
  induction us as [|u us IH]; intros segment H; [reflexivity|].
  inversion H as [|x l Hu Hus]; subst. unfold keeps_id in Hu.
  cbn [fold_left]. unfold updateSegment at 2. cbn [map].
  rewrite Hu, Z.eqb_refl.
  rewrite IH.
  - rewrite last_default. reflexivity.
  - eapply Forall_impl; [|exact Hus].
    intros v Hv. unfold keeps_id in *. congruence.
Qed.

(** ** The sampling loop *)

Lemma sampleLoop_guard_false : forall fuel video t e acc w st,
  le t e = false ->
  sampleLoop (S fuel) video t e acc w st
  = {| completion := Resolved acc; final := st; trace := [] |}.
Proof. intros; simpl; rewrite H; reflexivity. Qed.

Lemma sampleLoop_guard_true : forall fuel video t e acc w st,
  le t e = true ->
  let r := sampleLoop fuel video (add t interval) e
             (acc ++ [Frame.mk (Math_random w (draws st)) t (capture video t)]) w
             {| workerScriptBlobUrl := workerScriptBlobUrl st;
                draws := S (draws st) |} in
  sampleLoop (S fuel) video t e acc w st
  = {| completion := completion r; final := final r;
       trace := setCurrentTime t :: trace r |}.
Proof. intros; simpl; rewrite H; reflexivity. Qed.

Lemma sampleLoop_silent : forall P fuel video e t acc,
  emits P (sampleLoop fuel video t e acc).
Proof.
  induction fuel as [|fuel IH]; intros video e t acc; simpl.
  - auto with emits.
  - destruct (le t e); auto with emits.
Qed.

Lemma sampled_shift : forall w video d t k,
  sampled w video (S d) (add t interval) k = sampled w video d t (S k).
Proof.
  intros; unfold sampled; simpl.
  replace (k + S d)%nat with (S (k + d)) by lia; reflexivity.
Qed.

(** A loop that settles pushed exactly the frames of the iterations whose
    test succeeded, and stopped at the first test that failed. *)
Lemma sampleLoop_run : forall fuel video e w t acc st fs,
  completion (sampleLoop fuel video t e acc w st) = Resolved fs ->
  exists n,
    fs = acc ++ map (sampled w video (draws st) t) (seq 0 n)
    /\ (forall k, (k < n)%nat -> le (accumulated k t) e = true)
    /\ le (accumulated n t) e = false.
Proof.
  induction fuel as [|fuel IH]; intros video e w t acc st fs Hrun;
    [discriminate|].
  destruct (le t e) eqn:G.
  - rewrite (sampleLoop_guard_true fuel video t e acc w st G) in Hrun.
    simpl in Hrun. apply IH in Hrun. destruct Hrun as [n [Hfs [Hle Hstop]]].
    exists (S n). split; [|split].
    + rewrite Hfs, <- app_assoc. f_equal. simpl. f_equal.
      rewrite <- seq_shift, map_map. apply map_ext.
      intros k; apply sampled_shift.
    + intros [|k] Hk; [exact G|]. simpl. apply Hle. lia.
    + exact Hstop.
  - rewrite sampleLoop_guard_false in Hrun by exact G.
    injection Hrun as <-. exists 0%nat. simpl.
    rewrite app_nil_r. repeat split; [intros; lia | exact G].
Qed.

(** More fuel does not change a loop that settles. *)
Lemma sampleLoop_fuel : forall fuel extra video e w t acc st fs,
  completion (sampleLoop fuel video t e acc w st) = Resolved fs ->
  sampleLoop (fuel + extra) video t e acc w st
  = sampleLoop fuel video t e acc w st.
Proof.
  induction fuel as [|fuel IH]; intros extra video e w t acc st fs Hrun;
    [discriminate|].
  destruct (le t e) eqn:G.
  - rewrite (sampleLoop_guard_true fuel video t e acc w st G) in Hrun.
    simpl in Hrun.
    change (S fuel + extra)%nat with (S (fuel + extra)).
    rewrite (sampleLoop_guard_true (fuel + extra) video t e acc w st G).
    rewrite (sampleLoop_guard_true fuel video t e acc w st G).
    rewrite (IH extra _ _ _ _ _ _ _ Hrun). reflexivity.
  - change (S fuel + extra)%nat with (S (fuel + extra)).
    rewrite !sampleLoop_guard_false by exact G. reflexivity.
Qed.

(** The loop settles as soon as the fuel covers the first failing test. *)
Lemma sampleLoop_settles : forall n fuel video e w t acc st,
  le (accumulated n t) e = false -> (n < fuel)%nat ->
  exists fs, completion (sampleLoop fuel video t e acc w st) = Resolved fs.
Proof.
  induction n as [|n IH]; intros fuel video e w t acc st Hstop Hfuel;
    (destruct fuel as [|fuel]; [lia|]).
  - simpl in Hstop. rewrite sampleLoop_guard_false by exact Hstop.
    eexists; reflexivity.
  - destruct (le t e) eqn:G.
    + rewrite (sampleLoop_guard_true fuel video t e acc w st G).
      cbn [completion]. apply IH; [exact Hstop | lia].
    + rewrite sampleLoop_guard_false by exact G. eexists; reflexivity.
Qed.

Lemma sampleLoop_unit_range : forall video w st,
  completion (sampleLoop 12 video zero one [] w st)
  = Resolved (map (sampled w video (draws st) zero) (seq 0 11)).
Proof. intros; vm_compute; reflexivity. Qed.

Lemma unit_range_sampled : forall video w d,
  map Frame.timestamp (map (sampled w video d zero) (seq 0 11))
  = unit_range_timestamps.
Proof. intros; vm_compute; reflexivity. Qed.

(** ** extractFrames *)

Lemma silent_nil : forall A (m : M A) w st,
  emits (fun _ => False) m -> updates (trace (m w st)) = [].
Proof.
  intros A m w st H. specialize (H w st).
  destruct (updates (trace (m w st))) as [|u us]; [reflexivity|].
  inversion H; contradiction.
Qed.

Lemma extractFrames_run : forall fuel w st video segment,
  videoRef w = Some video -> canvasRef w = true -> context2d w = true ->
  let loop := sampleLoop fuel video
                (TimeRange.start (Segment.timeRange segment))
                (TimeRange.end_ (Segment.timeRange segment)) [] w st in
  match completion loop with
  | Resolved fs =>
      completion (extractFrames fuel segment w st) = Resolved tt
      /\ updates (trace (extractFrames fuel segment w st))
         = [extractionStarted segment; extractionFinished segment fs]
  | Rejected e =>
      completion (extractFrames fuel segment w st) = Rejected e
  | Pending =>
      completion (extractFrames fuel segment w st) = Pending
      /\ updates (trace (extractFrames fuel segment w st))
         = [extractionStarted segment]
  end.
Proof.
  intros fuel w st video segment Hv Hc Hx loop.
  assert (Hsilent : updates (trace loop) = [])
    by (apply silent_nil, sampleLoop_silent).
  unfold extractFrames, bind, ask, emit; simpl.
  rewrite Hv, Hc, Hx; simpl. fold loop.
  destruct (completion loop) as [fs|e|]; simpl.
  - split; [reflexivity|].
    rewrite updates_app, Hsilent. reflexivity.
  - reflexivity.
  - split; [reflexivity|]. rewrite Hsilent. reflexivity.
Qed.

Lemma extractFrames_no_context : forall fuel w st video segment,
  videoRef w = Some video -> canvasRef w = true -> context2d w = false ->
  extractFrames fuel segment w st
  = {| completion := Resolved tt; final := st;
       trace := [onUpdate (extractionStarted segment)] |}.
Proof.
  intros fuel w st video segment Hv Hc Hx.
  unfold extractFrames, bind, ask, emit; simpl.
  rewrite Hv, Hc, Hx; reflexivity.
Qed.

(** An extraction that settles leaves the frames of the successful loop
    tests, in order, in a segment that is [frames_ready]. *)
Lemma extractFrames_settled : forall fuel w st video segment,
  videoRef w = Some video -> canvasRef w = true -> context2d w = true ->
  let start := TimeRange.start (Segment.timeRange segment) in
  let end_ := TimeRange.end_ (Segment.timeRange segment) in
  let r := extractFrames fuel segment w st in
  completion r = Resolved tt ->
  exists n,
    Segment.frames (after r segment)
    = map (sampled w video (draws st) start) (seq 0 n)
    /\ Segment.status (after r segment) = Status.frames_ready
    /\ (forall k, (k < n)%nat -> le (accumulated k start) end_ = true)
    /\ le (accumulated n start) end_ = false.
Proof.
  intros fuel w st video segment Hv Hc Hx start end_ r Hdone.
  pose proof (@extractFrames_run fuel w st video segment Hv Hc Hx) as Hrun.
  cbv zeta in Hrun. fold start end_ r in Hrun.
  destruct (completion (sampleLoop fuel video start end_ [] w st))
    as [fs|e|] eqn:Hloop.
  - destruct Hrun as [_ Hups].
    destruct (@sampleLoop_run _ _ _ _ _ _ _ _ Hloop) as [n [Hfs [Hle Hstop]]].
    exists n. unfold after. rewrite Hups. simpl.
    repeat split; assumption.
  - rewrite Hrun in Hdone; discriminate.
  - destruct Hrun as [Hpending _]. rewrite Hpending in Hdone; discriminate.
Qed.

(** C1 (as amended).  With the video, the canvas and its 2D context at hand,
    an extraction that settles stores, in sampling order, one frame per
    successful loop test: the [k]-th frame carries the time reached after [k]
    successive binary64 additions of 1/10 to [start], every such time is
    [<= end], and the time after the last frame is not.  The extraction
    settles as soon as the fuel covers the first of these times that is not
    [<= end].  For start = 0 and end = 1 it settles (twelve loop tests
    suffice) with exactly
    the eleven timestamps 0, 0.1, 0.2, 0.30000000000000004, 0.4, 0.5, 0.6,
    0.7, 0.7999999999999999, 0.8999999999999999, 0.9999999999999999. *)
Theorem extractFrames_accumulated_timestamps :
  forall fuel w st video segment,
    videoRef w = Some video -> canvasRef w = true -> context2d w = true ->
    let start := TimeRange.start (Segment.timeRange segment) in
    let end_ := TimeRange.end_ (Segment.timeRange segment) in
    let r := extractFrames fuel segment w st in
    (completion r = Resolved tt ->
     exists n,
       Segment.frames (after r segment)
       = map (sampled w video (draws st) start) (seq 0 n)
       /\ Segment.status (after r segment) = Status.frames_ready
       /\ (forall k, (k < n)%nat -> le (accumulated k start) end_ = true)
       /\ le (accumulated n start) end_ = false)
    /\ (forall n, le (accumulated n start) end_ = false -> (n < fuel)%nat ->
        completion r = Resolved tt)
    /\ (start = zero -> end_ = one -> (12 <= fuel)%nat ->
        completion r = Resolved tt
        /\ List.length (Segment.frames (after r segment)) = 11%nat
        /\ map Frame.timestamp (Segment.frames (after r segment))
           = unit_range_timestamps).
Proof.
  intros fuel w st video segment Hv Hc Hx start end_ r.
  pose proof (@extractFrames_run fuel w st video segment Hv Hc Hx) as Hrun.
  cbv zeta in Hrun. fold start end_ r in Hrun.
  split; [|split].
  - apply (@extractFrames_settled fuel w st video segment Hv Hc Hx).
  - intros n Hstop Hfuel.
    destruct (@sampleLoop_settles n fuel video end_ w start [] st Hstop Hfuel)
      as [fs Hfs].
    rewrite Hfs in Hrun. apply Hrun.
  - intros Hs He Hfuel.
    assert (Hloop : completion (sampleLoop fuel video start end_ [] w st)
                    = Resolved (map (sampled w video (draws st) zero) (seq 0 11))).
    { rewrite Hs, He.
      replace fuel with (12 + (fuel - 12))%nat by lia.
      rewrite (@sampleLoop_fuel 12 (fuel - 12) video one w zero [] st _
                 (sampleLoop_unit_range video w st)).
      apply sampleLoop_unit_range. }
    rewrite Hloop in Hrun. destruct Hrun as [Hdone Hups].
    split; [exact Hdone|]. unfold after. rewrite Hups. simpl last.
    unfold extractionFinished, Segment.frames.
    split; [reflexivity|].
    apply (unit_range_sampled video w (draws st)).
Qed.

Lemma extractFrames_accumulated_timestamps_witness :
  completion (extractFrames 12 created sunny fresh) = Resolved tt
  /\ List.length
       (Segment.frames (after (extractFrames 12 created sunny fresh) created))
     = 11%nat
  /\ map Frame.timestamp
       (Segment.frames (after (extractFrames 12 created sunny fresh) created))
     = unit_range_timestamps.
Proof.
  exact (proj2 (proj2 (@extractFrames_accumulated_timestamps 12 sunny fresh
                         (clip five) created eq_refl eq_refl eq_refl))
           eq_refl eq_refl (le_n 12)).
Defined.

(** C1 fails as stated: on the range 0 .. 1 the frame of index 3 is stamped
    0.30000000000000004, which is not [start + 3/10], and the last frame is
    stamped 0.9999999999999999, not 1; and on the range 0 .. 0.3, where
    [(end - start) * 10] is 3, three frames are stored, not four. *)
Lemma extractFrames_unit_range_inexact :
  let fs := Segment.frames (after (extractFrames 12 created sunny fresh) created) in
  let stamp k := Frame.timestamp (nth k fs frame1) in
  let start := TimeRange.start (Segment.timeRange created) in
  let short := with_timeRange created
                 (TimeRange.mk zero (div (ofZ 3) FRAMES_PER_SECOND)) in
  (List.length fs = 11%nat
   /\ strict_eq (stamp 3%nat) (add start (div (ofZ 3) FRAMES_PER_SECOND)) = false
   /\ stamp 3%nat <> add start (div (ofZ 3) FRAMES_PER_SECOND)
   /\ strict_eq (stamp 10%nat) one = false
   /\ stamp 10%nat <> one)
  /\ (mul (sub (TimeRange.end_ (Segment.timeRange short))
              (TimeRange.start (Segment.timeRange short))) FRAMES_PER_SECOND
      = ofZ 3
      /\ completion (extractFrames 12 short sunny fresh) = Resolved tt
      /\ List.length
           (Segment.frames (after (extractFrames 12 short sunny fresh) short))
         = 3%nat).
Proof.
  cbv zeta. repeat split; try (vm_compute; reflexivity);
    intros H; vm_compute in H; discriminate H.
Qed.

(** C3 (as amended).  With the video and the canvas mounted, the first thing
    [extractFrames] does, whatever the status of the segment, is to pass on a
    segment in status [extracting] whose frames are empty, whose selection is
    {none, none} and whose description is empty; its id, time range, [gifUrl]
    and [error] are those of the segment the handler was called on. *)
Theorem extractFrames_resets_frames_selection_description :
  forall fuel w st video segment,
    videoRef w = Some video -> canvasRef w = true ->
    exists u rest,
      updates (trace (extractFrames fuel segment w st)) = u :: rest
      /\ Segment.status u = Status.extracting
      /\ Segment.frames u = []
      /\ Segment.selectedFrameRange u = FrameRange.mk None None
      /\ Segment.gifDescription u = EmptyString
      /\ Segment.gifUrl u = Segment.gifUrl segment
      /\ Segment.error u = Segment.error segment
      /\ Segment.id u = Segment.id segment
      /\ Segment.timeRange u = Segment.timeRange segment.
Proof.
  intros fuel w st video segment Hv Hc.
  exists (extractionStarted segment).
  unfold extractFrames, bind, ask, emit; simpl.
  rewrite Hv, Hc; simpl.
  destruct (context2d w); simpl.
  - destruct (completion (sampleLoop _ _ _ _ _ _ _)); simpl;
      eexists; repeat split; reflexivity.
  - eexists; repeat split; reflexivity.
Qed.

Lemma extractFrames_resets_frames_selection_description_witness :
  exists u rest,
    updates (trace (extractFrames 12 finished sunny fresh)) = u :: rest
    /\ Segment.status u = Status.extracting
    /\ Segment.frames u = []
    /\ Segment.selectedFrameRange u = FrameRange.mk None None
    /\ Segment.gifDescription u = EmptyString
    /\ Segment.gifUrl u = Segment.gifUrl finished
    /\ Segment.error u = Segment.error finished
    /\ Segment.id u = Segment.id finished
    /\ Segment.timeRange u = Segment.timeRange finished.
Proof.
  exact (@extractFrames_resets_frames_selection_description 12 sunny fresh
           (clip five) finished eq_refl eq_refl).
Defined.

(** C3 fails as stated: re-extracting a [done] segment leaves its [gifUrl] in
    place, and re-extracting an [error] segment leaves its [error] in place. *)
Lemma extractFrames_keeps_gifUrl_and_error :
  (let u := hd finished (updates (trace (extractFrames 12 finished sunny fresh))) in
   Segment.status finished = Status.done
   /\ Segment.status u = Status.extracting
   /\ Segment.gifUrl u = Some "blob:old"%string
   /\ Segment.gifUrl u <> None)
  /\
  (let u := hd failed (updates (trace (extractFrames 12 failed sunny fresh))) in
   Segment.status failed = Status.error
   /\ Segment.status u = Status.extracting
   /\ Segment.error u <> None).
Proof.
  cbv zeta. repeat split; try (vm_compute; reflexivity);
    intros H; vm_compute in H; discriminate H.
Qed.

(** C4 (evaluation at the failing input).  When the canvas yields no 2D
    context, [extractFrames] has already passed on the [extracting] segment
    when it returns: it makes no further [onUpdate] call, so the segment
    stays in status [extracting] with no error message, and the button that
    would start another extraction is disabled. *)
Theorem extractFrames_without_context_stays_extracting :
  let w := studio (Some (clip five)) false Pending Pending in
  let r := extractFrames 12 created w fresh in
  extractDisabled created = false
  /\ completion r = Resolved tt
  /\ trace r = [onUpdate (extractionStarted created)]
  /\ dispatch (trace r) [created] = [after r created]
  /\ Segment.status (after r created) = Status.extracting
  /\ Segment.error (after r created) = None
  /\ extractDisabled (after r created) = true.
Proof.
  cbv zeta.
  rewrite (@extractFrames_no_context 12
             (studio (Some (clip five)) false Pending Pending) fresh
             (clip five) created eq_refl eq_refl eq_refl).
  repeat split.
Qed.

(** ** Arrays *)

Lemma findIndex_from_range : forall A (p : A -> bool) arr i,
  findIndex_from p arr i = (-1)%Z
  \/ (i <= findIndex_from p arr i < i + Z.of_nat (List.length arr))%Z.
Proof.
  induction arr as [|x rest IH]; intros i; simpl; [left; reflexivity|].
  destruct (p x); [right; lia|].
  destruct (IH (i + 1)%Z) as [H|H]; [left; exact H | right; lia].
Qed.

Lemma findIndex_range : forall A (p : A -> bool) arr,
  (0 <= findIndex p arr)%Z ->
  (findIndex p arr < Z.of_nat (List.length arr))%Z.
Proof.
  intros A p arr H. unfold findIndex in *.
  destruct (findIndex_from_range p arr 0) as [E|E]; lia.
Qed.

Lemma findIndex_from_found : forall A (p : A -> bool) arr i,
  (0 <= i)%Z -> (i <= findIndex_from p arr i)%Z ->
  exists x, nth_error arr (Z.to_nat (findIndex_from p arr i - i)) = Some x
            /\ p x = true.
Proof.
  induction arr as [|x rest IH]; intros i Hi H; simpl in *; [lia|].
  destruct (p x) eqn:Hp.
  - exists x. rewrite Z.sub_diag. split; [reflexivity | exact Hp].
  - destruct (findIndex_from_range p rest (i + 1)) as [E|E];
      [rewrite E in H; lia|].
    destruct (IH (i + 1)%Z) as [y [Hy Hpy]]; [lia|lia|].
    exists y. split; [|exact Hpy].
    replace (Z.to_nat (findIndex_from p rest (i + 1) - i))
      with (S (Z.to_nat (findIndex_from p rest (i + 1) - (i + 1)))) by lia.
    exact Hy.
Qed.

Lemma findIndex_found : forall A (p : A -> bool) arr,
  (0 <= findIndex p arr)%Z ->
  exists x, nth_error arr (Z.to_nat (findIndex p arr)) = Some x /\ p x = true.
Proof.
  intros A p arr H. unfold findIndex in *.
  destruct (findIndex_from_found p arr (Z.le_refl 0) H) as [x [Hx Hp]].
  exists x. rewrite Z.sub_0_r in Hx. split; assumption.
Qed.

Lemma slice_span : forall A (arr : list A) i j,
  (0 <= i <= j)%Z -> (j < Z.of_nat (List.length arr))%Z ->
  slice arr i (j + 1)
  = firstn (Z.to_nat (j - i + 1)) (skipn (Z.to_nat i) arr).
Proof.
  intros A arr i j Hij Hj. unfold slice, slice_bound.
  destruct (Z.ltb_spec i 0); [lia|].
  destruct (Z.ltb_spec (j + 1) 0); [lia|].
  rewrite (Z.min_l i) by lia. rewrite (Z.min_l (j + 1)) by lia.
  replace (j + 1 - i)%Z with (j - i + 1)%Z by lia. reflexivity.
Qed.

Lemma nth_error_span : forall A (arr : list A) from n k,
  (k < n)%nat ->
  nth_error (firstn n (skipn from arr)) k = nth_error arr (from + k).
Proof.
  intros A arr from n k Hk.
  rewrite nth_error_firstn.
  destruct (Nat.ltb_spec k n); [|lia].
  apply nth_error_skipn.
Qed.

(** ** generateGif *)

Lemma bind_resolved : forall A B (m : M A) (k : A -> M B) w st a,
  completion (m w st) = Resolved a ->
  bind m k w st
  = {| completion := completion (k a w (final (m w st)));
       final := final (k a w (final (m w st)));
       trace := trace (m w st) ++ trace (k a w (final (m w st))) |}.
Proof. intros A B m k w st a H; unfold bind; rewrite H; reflexivity. Qed.

Lemma getWorkerScriptUrl_resolves : forall w st,
  completion (getWorkerScriptUrl w st) = Resolved (workerScriptOf w st).
Proof.
  intros w st. unfold workerScriptOf, getWorkerScriptUrl, fetchWorkerScriptUrl,
    bind, get, put, ask, emit, ret; simpl.
  destruct (workerScriptBlobUrl st) as [url|]; simpl;
    [destruct (truthy url); simpl|]; try reflexivity;
    destruct (fetched_worker w); reflexivity.
Qed.

Lemma getWorkerScriptUrl_silent : forall P, emits P getWorkerScriptUrl.
Proof.
  intros P. unfold getWorkerScriptUrl, fetchWorkerScriptUrl.
  apply emits_bind; [auto with emits|]. intros st.
  assert (emits P
    (emit fetchWorkerScript ;; w <- ask ;;
     match fetched_worker w with
     | Some blobUrl =>
         st0 <- get ;;
         put {| workerScriptBlobUrl := Some blobUrl; draws := draws st0 |} ;;
         ret blobUrl
     | None => ret worker_cdn_url
     end)).
  { apply emits_bind; [auto with emits|]. intros _.
    apply emits_bind; [auto with emits|]. intros w.
    destruct (fetched_worker w); auto with emits. }
  destruct (workerScriptBlobUrl st) as [url|]; [destruct (truthy url)|];
    auto with emits.
Qed.

Lemma emitEach_run : forall es w st,
  emitEach es w st = {| completion := Resolved tt; final := st; trace := es |}.
Proof.
  induction es as [|e es IH]; intros w st; [reflexivity|].
  cbn [emitEach]. unfold bind, emit. cbn [completion final trace].
  rewrite IH. reflexivity.
Qed.

Lemma gifPromise_run : forall ws frames w st,
  gifPromise ws frames w st
  = {| completion := Resolved (encodeLoaded ws (map Frame.dataUrl frames));
       final := st;
       trace := map loadImage (map Frame.dataUrl frames) |}.
Proof.
  intros ws frames w st. unfold gifPromise, bind.
  rewrite emitEach_run. cbn [completion final trace ret].
  rewrite app_nil_r. reflexivity.
Qed.

Lemma encodeLoaded_run : forall ws images w st,
  encodeLoaded ws images w st
  = {| completion := gif_outcome w ws images frame_delay;
       final := st;
       trace := rendering w ws images |}.
Proof.
  intros ws images w st. unfold encodeLoaded, gif_outcome, rendering, bind, ask.
  cbn [completion final trace].
  destruct (forallb (image_loads w) images); reflexivity.
Qed.

Lemma generateDescriptionForFrames_run : forall urls w st,
  completion (generateDescriptionForFrames urls w st) = captionOutcome w urls
  /\ final (generateDescriptionForFrames urls w st) = st
  /\ trace (generateDescriptionForFrames urls w st)
     = match imageParts urls with
       | inl _ => []
       | inr parts => [generateContent gemini_model gemini_prompt parts]
       end.
Proof.
  intros urls w st. unfold generateDescriptionForFrames, captionOutcome.
  destruct (imageParts urls) as [e|parts]; [repeat split|].
  unfold try_catch, bind, emit, ask, settle, throw; simpl.
  destruct (ai_outcome w gemini_model gemini_prompt parts); repeat split.
Qed.

(** The [try] block, call by call: the worker script is obtained, every
    selected frame is given an image, the caption request is made, and only
    then, the images having loaded, is the encoder handed its frames. *)
Lemma encodeAndDescribe_run : forall segment chosen w st,
  let ws := workerScriptOf w st in
  let urls := map Frame.dataUrl chosen in
  let r := encodeAndDescribe segment chosen w st in
  completion r
  = match joinOutcome w ws chosen with
    | Resolved _ => Resolved tt
    | Rejected e => Rejected e
    | Pending => Pending
    end
  /\ trace r
     = trace (getWorkerScriptUrl w st) ++ map loadImage urls ++ captioning urls
       ++ rendering w ws urls
       ++ match joinOutcome w ws chosen with
          | Resolved both =>
              [onUpdate (generationDone segment (fst both) (snd both))]
          | _ => []
          end.
Proof.
  intros segment chosen w st ws urls r. subst r. unfold encodeAndDescribe.
  rewrite (bind_resolved _ _ _ _ (getWorkerScriptUrl_resolves w st)).
  fold ws. cbn [completion final trace].
  set (st1 := final (getWorkerScriptUrl w st)).
  rewrite (@bind_resolved _ _ (gifPromise ws chosen) _ w st1
             (encodeLoaded ws urls))
    by (rewrite gifPromise_run; reflexivity).
  rewrite gifPromise_run. cbn [completion final trace]. fold urls.
  destruct (generateDescriptionForFrames_run urls w st1) as [Hc [Hf Ht]].
  rewrite (@bind_resolved _ _ (called (generateDescriptionForFrames urls)) _ w st1
             (settle (completion (generateDescriptionForFrames urls w st1))))
    by reflexivity.
  unfold called. cbn [completion final trace].
  rewrite Hc, Hf, Ht. fold (captioning urls).
  unfold bind, Promise_all. rewrite !encodeLoaded_run.
  cbn [completion final trace settle].
  unfold joinOutcome. fold urls.
  destruct (gif_outcome w ws urls frame_delay) as [url|e1|];
    destruct (captionOutcome w urls) as [text|e2|];
    cbn [completion final trace emit app];
    rewrite ?app_nil_r; split; reflexivity.
Qed.

Lemma updates_loadImage : forall urls, updates (map loadImage urls) = [].
Proof. induction urls as [|u us IH]; [reflexivity | exact IH]. Qed.

Lemma getWorkerScriptUrl_trace : forall w st e,
  In e (trace (getWorkerScriptUrl w st)) -> e = fetchWorkerScript.
Proof.
  intros w st e.
  unfold getWorkerScriptUrl, fetchWorkerScriptUrl, bind, get, put, ask, emit,
    ret; simpl.
  destruct (workerScriptBlobUrl st) as [url|]; simpl;
    [destruct (truthy url); simpl|];
    try (destruct (fetched_worker w); simpl);
    intros H; intuition congruence.
Qed.

Lemma generateGif_run : forall segment a b w st,
  FrameRange.start (Segment.selectedFrameRange segment) = Some a ->
  FrameRange.end_ (Segment.selectedFrameRange segment) = Some b ->
  let chosen := selectedFrames segment a b in
  let urls := map Frame.dataUrl chosen in
  let ws := workerScriptOf w st in
  let r := generateGif segment w st in
  updates (trace r)
  = generationStarted segment
    :: match joinOutcome w ws chosen with
       | Resolved both => [generationDone segment (fst both) (snd both)]
       | Rejected e => [generationFailed segment e]
       | Pending => []
       end
  /\ completion r
     = match joinOutcome w ws chosen with
       | Pending => Pending
       | _ => Resolved tt
       end
  /\ trace r
     = onUpdate (generationStarted segment)
       :: trace (getWorkerScriptUrl w st) ++ map loadImage urls
          ++ captioning urls ++ rendering w ws urls
          ++ conclusion segment (joinOutcome w ws chosen).
Proof.
  intros segment a b w st Ha Hb chosen urls ws r. subst r.
  assert (Htrace : completion (generateGif segment w st)
                   = match joinOutcome w ws chosen with
                     | Pending => Pending
                     | _ => Resolved tt
                     end
                   /\ trace (generateGif segment w st)
                      = onUpdate (generationStarted segment)
                        :: trace (getWorkerScriptUrl w st) ++ map loadImage urls
                           ++ captioning urls ++ rendering w ws urls
                           ++ conclusion segment (joinOutcome w ws chosen)).
  { unfold generateGif. rewrite Ha, Hb. fold chosen.
    destruct (encodeAndDescribe_run segment chosen w st) as [Hc Ht].
    cbv zeta in Hc, Ht. fold ws urls in Hc, Ht.
    rewrite (@bind_resolved _ _ (emit (onUpdate (generationStarted segment)))
               _ w st tt eq_refl).
    cbn [emit completion final trace].
    unfold try_catch. rewrite Hc.
    destruct (joinOutcome w ws chosen) as [both|e|];
      cbn [completion trace app emit conclusion];
      rewrite ?Hc, Ht, ?app_nil_r; split; try reflexivity.
    rewrite <- !app_assoc. reflexivity. }
  destruct Htrace as [Hdone Htrace].
  split; [|split; [exact Hdone | exact Htrace]].
  rewrite Htrace. cbn [updates]. rewrite !updates_app.
  assert (H1 : updates (trace (getWorkerScriptUrl w st)) = [])
    by (apply silent_nil, getWorkerScriptUrl_silent).
  assert (H2 : updates (map loadImage urls) = []) by apply updates_loadImage.
  assert (H3 : updates (captioning urls) = [])
    by (unfold captioning; destruct (imageParts urls); reflexivity).
  assert (H4 : updates (rendering w ws urls) = [])
    by (unfold rendering; destruct (forallb _ _); reflexivity).
  rewrite H1, H2, H3, H4. cbn [app].
  destruct (joinOutcome w ws chosen); reflexivity.
Qed.

(** Which encoder and caption calls a run of [generateGif] contains. *)
Lemma generateGif_calls : forall segment a b w st,
  FrameRange.start (Segment.selectedFrameRange segment) = Some a ->
  FrameRange.end_ (Segment.selectedFrameRange segment) = Some b ->
  let urls := map Frame.dataUrl (selectedFrames segment a b) in
  let ws := workerScriptOf w st in
  let tr := trace (generateGif segment w st) in
  (forall src, In (loadImage src) tr <-> In src urls)
  /\ (forall ws' images delay,
        In (renderGif ws' images delay) tr
        <-> forallb (image_loads w) urls = true
            /\ ws' = ws /\ images = urls /\ delay = frame_delay)
  /\ (forall model prompt parts,
        In (generateContent model prompt parts) tr
        <-> imageParts urls = inr parts
            /\ model = gemini_model /\ prompt = gemini_prompt).
Proof.
  intros segment a b w st Ha Hb urls ws tr.
  destruct (@generateGif_run segment a b w st Ha Hb) as [_ [_ Htrace]].
  cbv zeta in Htrace. fold urls ws tr in Htrace.
  assert (Hin : forall e, In e tr <->
            e = onUpdate (generationStarted segment)
            \/ In e (trace (getWorkerScriptUrl w st))
            \/ In e (map loadImage urls)
            \/ In e (captioning urls)
            \/ In e (rendering w ws urls)
            \/ In e (conclusion segment
                       (joinOutcome w ws (selectedFrames segment a b)))).
  { intros e. rewrite Htrace. cbn [In]. rewrite !in_app_iff.
    split; [intros [H|H]; [left; symmetry; exact H | right; exact H]
           |intros [H|H]; [left; symmetry; exact H | right; exact H]]. }
  assert (Hload : forall e, In e (map loadImage urls) ->
            exists src, e = loadImage src /\ In src urls).
  { intros e H. apply in_map_iff in H. destruct H as [src [<- H]].
    exists src. split; [reflexivity | exact H]. }
  assert (Hcap : forall e, In e (captioning urls) ->
            exists parts, e = generateContent gemini_model gemini_prompt parts
                          /\ imageParts urls = inr parts).
  { intros e. unfold captioning.
    destruct (imageParts urls) as [x|parts]; [intros []|].
    intros [<-|[]]. exists parts. split; reflexivity. }
  assert (Hren : forall e, In e (rendering w ws urls) ->
            e = renderGif ws urls frame_delay
            /\ forallb (image_loads w) urls = true).
  { intros e. unfold rendering.
    destruct (forallb (image_loads w) urls); [|intros []].
    intros [<-|[]]. split; reflexivity. }
  assert (Hend : forall e, In e (conclusion segment
                   (joinOutcome w ws (selectedFrames segment a b))) ->
            exists u, e = onUpdate u).
  { intros e. unfold conclusion.
    destruct (joinOutcome w ws (selectedFrames segment a b)) as [both|x|];
      [intros [<-|[]]; eexists; reflexivity
      |intros [<-|[]]; eexists; reflexivity
      |intros []]. }
  split; [|split].
  - intros src. rewrite Hin. split.
    + intros [H|[H|[H|[H|[H|H]]]]].
      * discriminate H.
      * apply getWorkerScriptUrl_trace in H. discriminate H.
      * apply Hload in H. destruct H as [x [E Hx]]. injection E as <-. exact Hx.
      * apply Hcap in H. destruct H as [x [E _]]. discriminate E.
      * apply Hren in H. destruct H as [E _]. discriminate E.
      * apply Hend in H. destruct H as [x E]. discriminate E.
    + intros H. right. right. left. apply in_map. exact H.
  - intros ws' images delay. rewrite Hin. split.
    + intros [H|[H|[H|[H|[H|H]]]]].
      * discriminate H.
      * apply getWorkerScriptUrl_trace in H. discriminate H.
      * apply Hload in H. destruct H as [x [E _]]. discriminate E.
      * apply Hcap in H. destruct H as [x [E _]]. discriminate E.
      * apply Hren in H. destruct H as [E Hall]. injection E as -> -> ->.
        repeat split. exact Hall.
      * apply Hend in H. destruct H as [x E]. discriminate E.
    + intros [Hall [-> [-> ->]]]. right. right. right. right. left.
      unfold rendering. rewrite Hall. left. reflexivity.
  - intros model prompt parts. rewrite Hin. split.
    + intros [H|[H|[H|[H|[H|H]]]]].
      * discriminate H.
      * apply getWorkerScriptUrl_trace in H. discriminate H.
      * apply Hload in H. destruct H as [x [E _]]. discriminate E.
      * apply Hcap in H. destruct H as [x [E Hx]]. injection E as -> -> ->.
        repeat split. exact Hx.
      * apply Hren in H. destruct H as [E _]. discriminate E.
      * apply Hend in H. destruct H as [x E]. discriminate E.
    + intros [Hparts [-> ->]]. right. right. right. left.
      unfold captioning. rewrite Hparts. left. reflexivity.
Qed.

(** C5.  When both ends of the selection are set to ids [a] and [b] whose
    positions in [frames] satisfy index(a) > index(b), what [generateGif]
    exports is exactly [frames[index(b)] .. frames[index(a)]] (and would be
    the same had the two ends been stored the other way round): that many
    frames, the [k]-th of them being [frames[index(b) + k]], the first one
    carrying id [b] and the last one id [a].  The data URLs of exactly these
    frames are what the run creates its images from; the encoder is handed
    a list of images exactly when all of these have loaded, and then it is
    this list, in this order, with the frame delay; and the caption service
    calls the model exactly when these URLs convert, with their parts in
    this order. *)
Theorem generateGif_exports_inclusive_span :
  forall segment a b w st,
    FrameRange.start (Segment.selectedFrameRange segment) = Some a ->
    FrameRange.end_ (Segment.selectedFrameRange segment) = Some b ->
    let frames := Segment.frames segment in
    let ia := indexOfFrame frames a in
    let ib := indexOfFrame frames b in
    (0 <= ib)%Z -> (ib < ia)%Z ->
    let span := firstn (Z.to_nat (ia - ib + 1)) (skipn (Z.to_nat ib) frames) in
    selectedFrames segment a b = span
    /\ selectedFrames segment b a = span
    /\ List.length span = Z.to_nat (ia - ib + 1)
    /\ (forall k, (k <= Z.to_nat (ia - ib))%nat ->
          nth_error span k = nth_error frames (Z.to_nat ib + k))
    /\ (exists fb fa,
          nth_error span 0 = Some fb /\ strict_eq (Frame.id fb) b = true
          /\ nth_error span (Z.to_nat (ia - ib)) = Some fa
          /\ strict_eq (Frame.id fa) a = true)
    /\ (forall src,
          In (loadImage src) (trace (generateGif segment w st))
          <-> In src (map Frame.dataUrl span))
    /\ (forall workerScript images delay,
          In (renderGif workerScript images delay)
             (trace (generateGif segment w st))
          <-> forallb (image_loads w) (map Frame.dataUrl span) = true
              /\ workerScript = workerScriptOf w st
              /\ images = map Frame.dataUrl span
              /\ delay = frame_delay)
    /\ (forall model prompt parts,
          In (generateContent model prompt parts)
             (trace (generateGif segment w st))
          <-> imageParts (map Frame.dataUrl span) = inr parts
              /\ model = gemini_model /\ prompt = gemini_prompt).
Proof.
  intros segment a b w st Ha Hb frames ia ib Hib Hlt span.
  assert (Hia : (ia < Z.of_nat (List.length frames))%Z)
    by (apply findIndex_range; fold (indexOfFrame frames a); fold ia; lia).
  assert (Hsel : selectedFrames segment a b = span).
  { unfold selectedFrames. fold frames ia ib.
    rewrite Z.min_r, Z.max_l by lia. apply slice_span; lia. }
  assert (Hnth : forall k, (k <= Z.to_nat (ia - ib))%nat ->
            nth_error span k = nth_error frames (Z.to_nat ib + k)).
  { intros k Hk. apply nth_error_span. lia. }
  destruct (@generateGif_calls segment a b w st Ha Hb) as [Hl [Hg Hd]].
  cbv zeta in Hl, Hg, Hd. rewrite Hsel in Hl, Hg, Hd.
  split; [exact Hsel|].
  split; [unfold selectedFrames; fold frames ia ib;
          rewrite Z.min_l, Z.max_r by lia; apply slice_span; lia|].
  split; [|split; [exact Hnth|split; [|split; [|split]]]].
  - unfold span. rewrite length_firstn, length_skipn. lia.
  - destruct (@findIndex_found _ (fun f => strict_eq (Frame.id f) b) frames Hib)
      as [fb [Hfb Hpb]].
    destruct (@findIndex_found _ (fun f => strict_eq (Frame.id f) a) frames)
      as [fa [Hfa Hpa]]; [fold (indexOfFrame frames a); fold ia; lia|].
    fold (indexOfFrame frames b) in Hfb. fold ib in Hfb.
    fold (indexOfFrame frames a) in Hfa. fold ia in Hfa.
    exists fb, fa. rewrite !Hnth by lia.
    rewrite Nat.add_0_r.
    replace (Z.to_nat ib + Z.to_nat (ia - ib))%nat with (Z.to_nat ia) by lia.
    repeat split; assumption.
  - exact Hl.
  - exact Hg.
  - exact Hd.
Qed.

Lemma generateGif_exports_inclusive_span_witness :
  let segment :=
    with_selectedFrameRange finished
      (FrameRange.mk (Some (Frame.id frame3)) (Some (Frame.id frame2))) in
  selectedFrames segment (Frame.id frame3) (Frame.id frame2) = [frame2; frame3]
  /\ In (renderGif "blob:worker" [Frame.dataUrl frame2; Frame.dataUrl frame3]
           frame_delay)
        (trace (generateGif segment sunny fresh)).
Proof.
  cbv zeta.
  pose proof (@generateGif_exports_inclusive_span
                (with_selectedFrameRange finished
                   (FrameRange.mk (Some (Frame.id frame3)) (Some (Frame.id frame2))))
                (Frame.id frame3) (Frame.id frame2) sunny fresh
                eq_refl eq_refl) as H.
  cbv zeta in H.
  assert (H0 : (0 <= indexOfFrame (Segment.frames finished) (Frame.id frame2))%Z)
    by (vm_compute; discriminate).
  assert (H1 : (indexOfFrame (Segment.frames finished) (Frame.id frame2)
                < indexOfFrame (Segment.frames finished) (Frame.id frame3))%Z)
    by (vm_compute; reflexivity).
  destruct (H H0 H1) as [Hs [_ [_ [_ [_ [_ [Hg _]]]]]]].
  split; [exact Hs|].
  apply Hg. repeat split.
Defined.

Lemma dispatch_nil : forall segments, dispatch [] segments = segments.
Proof. reflexivity. Qed.

(** C8.  With at most one end of the selection set, [generateGif] returns at
    once: it calls neither [onUpdate] nor the encoder nor the caption service
    (its trace is empty) and leaves the module state alone, so the segment,
    its status included, and the whole list of segments stay as they were. *)
Theorem generateGif_incomplete_selection_noop :
  forall segment w st segments,
    FrameRange.start (Segment.selectedFrameRange segment) = None
    \/ FrameRange.end_ (Segment.selectedFrameRange segment) = None ->
    generateGif segment w st
    = {| completion := Resolved tt; final := st; trace := [] |}
    /\ after (generateGif segment w st) segment = segment
    /\ dispatch (trace (generateGif segment w st)) segments = segments.
Proof.
  intros segment w st segments H.
  assert (E : generateGif segment w st
              = {| completion := Resolved tt; final := st; trace := [] |}).
  { unfold generateGif.
    destruct (FrameRange.start (Segment.selectedFrameRange segment)) as [a|];
      destruct (FrameRange.end_ (Segment.selectedFrameRange segment)) as [b|];
      try reflexivity.
    destruct H; discriminate. }
  rewrite E. repeat split.
Qed.

Lemma generateGif_incomplete_selection_noop_witness :
  let half :=
    with_selectedFrameRange finished (FrameRange.mk (Some (Frame.id frame1)) None) in
  generateGif half sunny fresh
  = {| completion := Resolved tt; final := fresh; trace := [] |}
  /\ after (generateGif half sunny fresh) half = half
  /\ dispatch (trace (generateGif half sunny fresh)) [half] = [half].
Proof.
  exact (@generateGif_incomplete_selection_noop
           (with_selectedFrameRange finished
              (FrameRange.mk (Some (Frame.id frame1)) None))
           sunny fresh _ (or_intror eq_refl)).
Defined.

(** X27.  What a generation that was started ends with: [done] exactly when both
    the encoder and the caption service succeed, carrying their results; on
    the first rejection [error], with a message that is never empty, and with
    every other field taken from the segment the handler closed over. *)
Lemma generateGif_settles : forall segment a b w st,
  FrameRange.start (Segment.selectedFrameRange segment) = Some a ->
  FrameRange.end_ (Segment.selectedFrameRange segment) = Some b ->
  let r := generateGif segment w st in
  let join := joinOutcome w (workerScriptOf w st) (selectedFrames segment a b) in
  (forall url text, join = Resolved (url, text) ->
     after r segment = generationDone segment url text)
  /\ (forall e, join = Rejected e ->
        after r segment = generationFailed segment e
        /\ Segment.status (after r segment) = Status.error
        /\ (exists message, Segment.error (after r segment) = Some message
                            /\ message <> EmptyString)
        /\ Segment.gifDescription (after r segment) = Segment.gifDescription segment
        /\ Segment.gifUrl (after r segment) = Segment.gifUrl segment)
  /\ (join = Pending -> after r segment = generationStarted segment)
  /\ (Segment.status (after r segment) = Status.done ->
        exists url text, join = Resolved (url, text)
          /\ Segment.gifUrl (after r segment) = Some url
          /\ Segment.gifDescription (after r segment) = text).
Proof.
  intros segment a b w st Ha Hb r join.
  destruct (@generateGif_run segment a b w st Ha Hb) as [Hu _].
  cbv zeta in Hu. fold r join in Hu. unfold after. rewrite Hu. clear Hu.
  destruct join as [[url text]|e|]; cbn [last fst snd].
  - split; [intros ? ? E; injection E as <- <-; reflexivity|].
    split; [intros ? E; discriminate|]. split; [intros E; discriminate|].
    intros _. exists url, text. repeat split.
  - split; [intros ? ? E; discriminate|].
    split.
    { intros e' E; injection E as <-. repeat split.
      eexists; split; [reflexivity | discriminate]. }
    split; [intros E; discriminate|]. intros E; discriminate E.
  - split; [intros ? ? E; discriminate|].
    split; [intros ? E; discriminate|]. split; [reflexivity|].
    intros E; discriminate E.
Qed.

(** C2 (evaluation at the failing input).  A segment that is [done] and holds
    the URL of an earlier animation (the handlers lead there, and its
    generate button is enabled) is generated again; the encoder succeeds and
    the caption call fails.  The handler first passes on a [generating]
    segment with [gifUrl] undefined, and then an [error] segment built from
    the segment it closed over: the message is set and the new results are
    dropped, but [gifUrl] is the earlier URL again, not undefined. *)
Theorem generateGif_failure_restores_earlier_gifUrl :
  let w := studio (Some (clip five)) true (Resolved "blob:new"%string)
             (Rejected (ErrorObj "503 Service Unavailable")) in
  let r := generateGif finished w fresh in
  reachable (fun _ => True) (Segment.id finished) finished
  /\ generateDisabled finished = false
  /\ updates (trace r)
     = [generationStarted finished;
        generationFailed finished
          (ErrorObj "The AI model failed to generate a description.")]
  /\ Segment.gifUrl (generationStarted finished) = None
  /\ dispatch (trace r) [finished] = [after r finished]
  /\ Segment.status (after r finished) = Status.error
  /\ Segment.error (after r finished)
     = Some "Failed to generate GIF. The AI model failed to generate a description."%string
  /\ Segment.gifDescription (after r finished) = Segment.gifDescription finished
  /\ Segment.gifUrl (after r finished) = Some "blob:old"%string.
Proof.
  cbv zeta. split; [exact finished_reachable|].
  repeat split; vm_compute; reflexivity.
Qed.

(** ** handleFrameSelection *)

Lemma selectFrame_selection : forall w st frameId segment,
  selectFrame w st frameId segment
  = with_selectedFrameRange segment
      (let sel := Segment.selectedFrameRange segment in
       match FrameRange.start sel, FrameRange.end_ sel with
       | None, _ => FrameRange.mk (Some frameId) None
       | Some start, None =>
           if (indexOfFrame (Segment.frames segment) frameId
               <? indexOfFrame (Segment.frames segment) start)%Z
           then FrameRange.mk (Some frameId) (Some start)
           else FrameRange.mk (Some start) (Some frameId)
       | Some _, Some _ => FrameRange.mk (Some frameId) None
       end).
Proof.
  intros w st frameId segment.
  unfold selectFrame, after, handleFrameSelection. cbv zeta.
  destruct (FrameRange.start (Segment.selectedFrameRange segment)) as [s|];
    [|reflexivity].
  destruct (FrameRange.end_ (Segment.selectedFrameRange segment)) as [e|];
    [reflexivity|].
  destruct (_ <? _)%Z; reflexivity.
Qed.

(** After a click the selection has a start, and a click on a selection with
    only a start completes the pair. *)
Lemma selectFrame_completes : forall w st frameId segment s,
  FrameRange.start (Segment.selectedFrameRange segment) = Some s ->
  FrameRange.end_ (Segment.selectedFrameRange segment) = None ->
  exists x y,
    Segment.selectedFrameRange (selectFrame w st frameId segment)
    = FrameRange.mk (Some x) (Some y).
Proof.
  intros w st frameId segment s Hs He.
  rewrite selectFrame_selection. cbv zeta. rewrite Hs, He.
  destruct (_ <? _)%Z; eexists; eexists; reflexivity.
Qed.

Lemma selectFrame_restarts : forall w st frameId segment x y,
  FrameRange.start (Segment.selectedFrameRange segment) = Some x ->
  FrameRange.end_ (Segment.selectedFrameRange segment) = Some y ->
  Segment.selectedFrameRange (selectFrame w st frameId segment)
  = FrameRange.mk (Some frameId) None.
Proof.
  intros w st frameId segment x y Hx Hy.
  rewrite selectFrame_selection. cbv zeta. rewrite Hx, Hy. reflexivity.
Qed.

Lemma selectFrame_starts : forall w st frameId segment,
  FrameRange.start (Segment.selectedFrameRange segment) = None ->
  Segment.selectedFrameRange (selectFrame w st frameId segment)
  = FrameRange.mk (Some frameId) None.
Proof.
  intros w st frameId segment Hs.
  rewrite selectFrame_selection. cbv zeta. rewrite Hs. reflexivity.
Qed.

(** C7 (as amended).  For a segment whose selection is not half made (its
    start is unset, or its end is set) and any frame ids [a], [b], [c], the
    clicks [a], [b], [c] leave the selection {start: c, end: none}; and in
    any segment with both ends set, the next click discards the pair and
    starts a fresh selection at the clicked frame. *)
Theorem selectFrame_third_click_restarts :
  forall segment a b c w1 st1 w2 st2 w3 st3,
    FrameRange.start (Segment.selectedFrameRange segment) = None
    \/ FrameRange.end_ (Segment.selectedFrameRange segment) <> None ->
    Segment.selectedFrameRange
      (selectFrame w3 st3 c (selectFrame w2 st2 b (selectFrame w1 st1 a segment)))
    = FrameRange.mk (Some c) None
    /\ (forall other x y,
          Segment.selectedFrameRange other = FrameRange.mk (Some x) (Some y) ->
          Segment.selectedFrameRange (selectFrame w3 st3 c other)
          = FrameRange.mk (Some c) None).
Proof.
  intros segment a b c w1 st1 w2 st2 w3 st3 H. split.
  - assert (H1 : Segment.selectedFrameRange (selectFrame w1 st1 a segment)
                 = FrameRange.mk (Some a) None).
    { destruct (FrameRange.start (Segment.selectedFrameRange segment))
        as [x|] eqn:Hx; [|apply selectFrame_starts; exact Hx].
      destruct (FrameRange.end_ (Segment.selectedFrameRange segment))
        as [y|] eqn:Hy; [eapply selectFrame_restarts; eassumption|].
      destruct H as [H|H]; [discriminate | contradiction]. }
    destruct (@selectFrame_completes w2 st2 b (selectFrame w1 st1 a segment) a)
      as [x [y H2]]; [rewrite H1; reflexivity | rewrite H1; reflexivity|].
    apply (@selectFrame_restarts w3 st3 c _ x y); rewrite H2; reflexivity.
  - intros other x y Ho.
    apply (@selectFrame_restarts w3 st3 c other x y); rewrite Ho; reflexivity.
Qed.

Lemma selectFrame_third_click_restarts_witness :
  Segment.selectedFrameRange
    (selectFrame sunny fresh (Frame.id frame1)
       (selectFrame sunny fresh (Frame.id frame3)
          (selectFrame sunny fresh (Frame.id frame2) finished)))
  = FrameRange.mk (Some (Frame.id frame1)) None.
Proof.
  exact (proj1 (@selectFrame_third_click_restarts finished
                  (Frame.id frame2) (Frame.id frame3) (Frame.id frame1)
                  sunny fresh sunny fresh sunny fresh
                  (or_intror (fun E => eq_ind (Some (Frame.id frame2))
                     (fun o => match o with Some _ => True | None => False end)
                     I None E)))).
Defined.

(** C7 fails as stated: in a segment where one click has already been made,
    the clicks [a], [b], [c] end with both ends set. *)
Lemma selectFrame_after_half_made_selection :
  let segment :=
    with_selectedFrameRange finished (FrameRange.mk (Some (Frame.id frame1)) None) in
  let a := Frame.id frame2 in
  let b := Frame.id frame3 in
  let c := Frame.id frame1 in
  strict_eq a b = false
  /\ Segment.selectedFrameRange
       (selectFrame sunny fresh c
          (selectFrame sunny fresh b (selectFrame sunny fresh a segment)))
     = FrameRange.mk (Some c) (Some b)
  /\ Segment.selectedFrameRange
       (selectFrame sunny fresh c
          (selectFrame sunny fresh b (selectFrame sunny fresh a segment)))
     <> FrameRange.mk (Some c) None.
Proof.
  cbv zeta. split; [vm_compute; reflexivity|].
  split; [vm_compute; reflexivity|].
  intros H; vm_compute in H; discriminate H.
Qed.

(** ** handleLoadedMetadata and handleRangeChange *)

(** C10.  When the metadata of a mounted video loads, a segment whose
    [timeRange.end] is [=== 1] gets the time range {0, min(5, duration)},
    whatever its start was, and keeps every other field; a segment whose
    end is not [=== 1] receives no update at all. *)
Theorem handleLoadedMetadata_replaces_sentinel_range :
  forall segment w st video,
    videoRef w = Some video ->
    let r := handleLoadedMetadata segment w st in
    (strict_eq (TimeRange.end_ (Segment.timeRange segment)) one = true ->
     updates (trace r)
     = [with_timeRange segment
          (TimeRange.mk zero (Math_min five (duration video)))]
     /\ Segment.timeRange (after r segment)
        = TimeRange.mk zero (Math_min five (duration video))
     /\ with_timeRange (after r segment) (Segment.timeRange segment) = segment)
    /\ (strict_eq (TimeRange.end_ (Segment.timeRange segment)) one = false ->
        updates (trace r) = [] /\ after r segment = segment).
Proof.
  intros segment w st video Hv r. subst r.
  unfold after, handleLoadedMetadata, bind, ask, emit, ret; simpl.
  rewrite Hv; simpl.
  split; intros E; rewrite E; simpl.
  - repeat split. destruct segment; reflexivity.
  - repeat split.
Qed.

Lemma handleLoadedMetadata_replaces_sentinel_range_witness :
  let chosen := with_timeRange finished (TimeRange.mk (div one (ofZ 2)) one) in
  let r := handleLoadedMetadata chosen (studio (Some (clip (ofZ 3))) true Pending Pending) fresh in
  Segment.timeRange (after r chosen) = TimeRange.mk zero (ofZ 3).
Proof.
  exact (proj1 (proj2
    (proj1 (@handleLoadedMetadata_replaces_sentinel_range
              (with_timeRange finished (TimeRange.mk (div one (ofZ 2)) one))
              (studio (Some (clip (ofZ 3))) true Pending Pending) fresh
              (clip (ofZ 3)) eq_refl)
       eq_refl))).
Defined.

Lemma handleRangeChange_rejects : forall value part segment w st,
  (part = part_start ->
   lt value (TimeRange.end_ (Segment.timeRange segment)) = false) ->
  (part = part_end ->
   gt value (TimeRange.start (Segment.timeRange segment)) = false) ->
  handleRangeChange value part segment w st
  = {| completion := Resolved tt; final := st; trace := [] |}.
Proof.
  intros value part segment w st Hs He.
  unfold handleRangeChange; destruct part; cbv zeta.
  - rewrite (Hs eq_refl). reflexivity.
  - rewrite (He eq_refl). reflexivity.
Qed.

(** ** What the handlers pass to [onUpdate] *)

Lemma seek_if_mounted_silent : forall P value, emits P (seek_if_mounted value).
Proof.
  intros P value. unfold seek_if_mounted.
  apply emits_bind; [auto with emits|]. intros w.
  destruct (videoRef w); auto with emits.
Qed.

Lemma handleRangeChange_emits : forall (P : Segment.t -> Prop) value part segment,
  (lt value (TimeRange.end_ (Segment.timeRange segment)) = true ->
   P (with_timeRange segment
        (TimeRange.mk value (TimeRange.end_ (Segment.timeRange segment))))) ->
  (gt value (TimeRange.start (Segment.timeRange segment)) = true ->
   P (with_timeRange segment
        (TimeRange.mk (TimeRange.start (Segment.timeRange segment)) value))) ->
  emits P (handleRangeChange value part segment).
Proof.
  intros P value part segment Hs He. unfold handleRangeChange. cbv zeta.
  pose proof (seek_if_mounted_silent P value) as Hseek.
  destruct part.
  - destruct (lt value _) eqn:G; auto 6 with emits.
  - destruct (gt value _) eqn:G; auto 6 with emits.
Qed.

Lemma handleLoadedMetadata_updates : forall (P : Segment.t -> Prop) segment w st,
  (forall video, videoRef w = Some video ->
     P (with_timeRange segment
          (TimeRange.mk zero (Math_min five (duration video))))) ->
  Forall P (updates (trace (handleLoadedMetadata segment w st))).
Proof.
  intros P segment w st H.
  unfold handleLoadedMetadata, bind, ask, emit, ret; simpl.
  destruct (videoRef w) as [video|]; simpl; [|constructor].
  destruct (strict_eq _ one); simpl; [|constructor].
  constructor; [apply H; reflexivity | constructor].
Qed.

Lemma extractFrames_emits : forall (P : Segment.t -> Prop) fuel segment,
  P (extractionStarted segment) ->
  (forall fs, P (extractionFinished segment fs)) ->
  emits P (extractFrames fuel segment).
Proof.
  intros P fuel segment Hs Hf. unfold extractFrames.
  pose proof (sampleLoop_silent P fuel) as Hloop.
  apply emits_bind; [auto with emits|]. intros w.
  destruct (videoRef w); [destruct (canvasRef w)|]; auto with emits.
  destruct (context2d w); auto 6 with emits.
Qed.

Lemma handleFrameSelection_emits : forall (P : Segment.t -> Prop) frameId segment,
  (forall r, P (with_selectedFrameRange segment r)) ->
  emits P (handleFrameSelection frameId segment).
Proof.
  intros P frameId segment H. unfold handleFrameSelection. cbv zeta.
  destruct (FrameRange.start _); [destruct (FrameRange.end_ _)|];
    auto with emits.
  destruct (_ <? _)%Z; auto with emits.
Qed.

Lemma generateGif_emits : forall (P : Segment.t -> Prop) segment,
  P (generationStarted segment) ->
  (forall url text, P (generationDone segment url text)) ->
  (forall e, P (generationFailed segment e)) ->
  emits P (generateGif segment).
Proof.
  intros P segment Hs Hd Hf w st.
  destruct (FrameRange.start (Segment.selectedFrameRange segment)) as [a|] eqn:Ha;
    [destruct (FrameRange.end_ (Segment.selectedFrameRange segment)) as [b|] eqn:Hb|].
  - destruct (@generateGif_run segment a b w st Ha Hb) as [Hu _].
    cbv zeta in Hu. rewrite Hu. constructor; [exact Hs|].
    destruct (joinOutcome _ _ _) as [both|e|]; repeat constructor;
      [apply Hd | apply Hf].
  - unfold generateGif. rewrite Ha, Hb. constructor.
  - unfold generateGif. rewrite Ha. constructor.
Qed.

(** No handler changes the id of the segment it was called on. *)
Lemma perform_keeps_id : forall a segment w st,
  Forall (keeps_id segment) (updates (trace (perform a segment w st))).
Proof.
  intros a segment w st. destruct a; simpl.
  - apply handleLoadedMetadata_updates. reflexivity.
  - apply handleRangeChange_emits; reflexivity.
  - apply extractFrames_emits; reflexivity.
  - apply handleFrameSelection_emits; reflexivity.
  - apply generateGif_emits; reflexivity.
Qed.

(** So the segment an editor holds after a handler ran alone is [after]. *)
Lemma dispatch_perform : forall a segment w st,
  dispatch (trace (perform a segment w st)) [segment]
  = [after (perform a segment w st) segment].
Proof.
  intros a segment w st. unfold dispatch, after.
  apply dispatch_own_updates, perform_keeps_id.
Qed.

Lemma Math_min_five_positive : forall d,
  lt zero d = true -> lt zero (Math_min five d) = true.
Proof.
  intros d Hd. unfold Math_min.
  change (isNaN five) with false. change (isNegZero five) with false.
  destruct (isNaN d) eqn:Hnan;
    [destruct d; try discriminate Hnan; discriminate Hd|].
  cbn [orb].
  destruct (lt five d); [reflexivity|].
  destruct (lt d five); exact Hd.
Qed.

(** Every handler keeps [start < end], provided the video that loads has a
    positive duration. *)
Lemma perform_keeps_valid_range : forall a segment w st,
  positiveDuration w ->
  validRange (Segment.timeRange segment) ->
  Forall (fun u => validRange (Segment.timeRange u))
    (updates (trace (perform a segment w st))).
Proof.
  intros a segment w st Hw Hvalid. destruct a; simpl.
  - apply handleLoadedMetadata_updates. intros video Hv.
    unfold positiveDuration in Hw. rewrite Hv in Hw.
    apply Math_min_five_positive, Hw.
  - apply handleRangeChange_emits; intros G; exact G.
  - apply extractFrames_emits; intros; exact Hvalid.
  - apply handleFrameSelection_emits; intros; exact Hvalid.
  - apply generateGif_emits; intros; exact Hvalid.
Qed.

Lemma reachable_valid_range : forall now segment,
  reachable positiveDuration now segment ->
  validRange (Segment.timeRange segment).
Proof.
  intros now segment H. induction H as [|s a w st u Hs IH Hw Hin].
  - vm_compute. reflexivity.
  - pose proof (perform_keeps_valid_range a s w st Hw IH) as Hall.
    rewrite Forall_forall in Hall. apply Hall, Hin.
Qed.

Lemma reachable_id : forall ok now segment,
  reachable ok now segment -> Segment.id segment = now.
Proof.
  intros ok now segment H. induction H as [|s a w st u Hs IH Hw Hin].
  - reflexivity.
  - pose proof (perform_keeps_id a s w st) as Hall.
    rewrite Forall_forall in Hall. rewrite <- IH. apply Hall, Hin.
Qed.

(** C6 (as amended).  An edit of the time range that would not leave
    [start < end] is dropped on the spot: [handleRangeChange] makes no call
    at all, so nothing changes and no error is set; an edit it accepts
    stores the requested value as it is, unclamped.  And in every segment
    an editor can hold, [start < end] holds, provided the videos whose
    metadata load have a positive duration. *)
Theorem timeRange_stays_valid :
  (forall value part segment w st,
     (part = part_start ->
      lt value (TimeRange.end_ (Segment.timeRange segment)) = false) ->
     (part = part_end ->
      gt value (TimeRange.start (Segment.timeRange segment)) = false) ->
     handleRangeChange value part segment w st
     = {| completion := Resolved tt; final := st; trace := [] |})
  /\ (forall value part segment w st u,
        In u (updates (trace (handleRangeChange value part segment w st))) ->
        (u = with_timeRange segment
               (TimeRange.mk value (TimeRange.end_ (Segment.timeRange segment)))
         \/ u = with_timeRange segment
                  (TimeRange.mk (TimeRange.start (Segment.timeRange segment)) value))
        /\ validRange (Segment.timeRange u))
  /\ (forall now segment,
        reachable positiveDuration now segment ->
        validRange (Segment.timeRange segment)).
Proof.
  split; [exact handleRangeChange_rejects|]. split.
  - intros value part segment w st u Hin.
    pose proof (@handleRangeChange_emits
      (fun u =>
         (u = with_timeRange segment
                (TimeRange.mk value (TimeRange.end_ (Segment.timeRange segment)))
          \/ u = with_timeRange segment
                   (TimeRange.mk (TimeRange.start (Segment.timeRange segment)) value))
         /\ validRange (Segment.timeRange u))
      value part segment) as Hall.
    unfold emits in Hall. specialize (fun Hs He => Hall Hs He w st).
    rewrite Forall_forall in Hall. apply Hall; [| |exact Hin].
    + intros G. split; [left; reflexivity | exact G].
    + intros G. split; [right; reflexivity | exact G].
  - exact reachable_valid_range.
Qed.

Lemma timeRange_stays_valid_witness :
  handleRangeChange (ofZ 2) part_start created sunny fresh
  = {| completion := Resolved tt; final := fresh; trace := [] |}
  /\ validRange (Segment.timeRange created).
Proof.
  split.
  - refine (proj1 timeRange_stays_valid (ofZ 2) part_start created sunny fresh _ _).
    + intros _. reflexivity.
    + intros H. discriminate H.
  - exact (proj2 (proj2 timeRange_stays_valid) (Segment.id created) created
             (reach_created positiveDuration (Segment.id created))).
Defined.

(** C6 fails as stated: the segment created on upload has the range 0 .. 1;
    when the metadata of a video of duration 0 loads, [handleLoadedMetadata]
    passes on the range {0, min(5, 0)} = {0, 0} without any test, so a
    segment with [start < end] false is reached. *)
Lemma handleLoadedMetadata_zero_duration_breaks_range :
  let w := studio (Some (clip zero)) true Pending Pending in
  let r := handleLoadedMetadata created w fresh in
  validRange (Segment.timeRange created)
  /\ updates (trace r) = [with_timeRange created (TimeRange.mk zero zero)]
  /\ dispatch (trace r) (handleVideoUpload (Segment.id created))
     = [after r created]
  /\ reachable (fun _ => True) (Segment.id created) (after r created)
  /\ lt (TimeRange.start (Segment.timeRange (after r created)))
        (TimeRange.end_ (Segment.timeRange (after r created))) = false
  /\ ~ validRange (Segment.timeRange (after r created)).
Proof.
  cbv zeta.
  split; [vm_compute; reflexivity|].
  split; [vm_compute; reflexivity|].
  split; [vm_compute; reflexivity|].
  split.
  - apply (@reach_updated (fun _ => True) (Segment.id created)
             created LoadedMetadata
             (studio (Some (clip zero)) true Pending Pending) fresh).
    + apply reach_created.
    + exact I.
    + left. vm_compute. reflexivity.
  - split; [vm_compute; reflexivity|].
    intros H. vm_compute in H. discriminate H.
Qed.

(** ** Identifiers *)

Lemma updateSegment_ids : forall u segments,
  map Segment.id (updateSegment u segments) = map Segment.id segments.
Proof.
  intros u segments. unfold updateSegment. rewrite map_map.
  apply map_ext. intros s.
  destruct (Z.eqb_spec (Segment.id s) (Segment.id u)) as [E|E];
    [symmetry; exact E | reflexivity].
Qed.

Lemma dispatch_ids : forall tr segments,
  map Segment.id (dispatch tr segments) = map Segment.id segments.
Proof.
  intros tr. unfold dispatch.
  induction (updates tr) as [|u us IH]; intros segments; simpl;
    [reflexivity|].
  rewrite IH. apply updateSegment_ids.
Qed.

Lemma removeSegment_ids : forall id segments,
  NoDup (map Segment.id segments) ->
  NoDup (map Segment.id (removeSegment id segments)).
Proof.
  intros id segments. unfold removeSegment.
  induction segments as [|s rest IH]; intros H; simpl; [constructor|].
  inversion H as [|x l Hnotin Hrest]; subst.
  destruct (negb (Segment.id s =? id)%Z); simpl; [|apply IH, Hrest].
  constructor; [|apply IH, Hrest].
  intros Hin. apply Hnotin.
  rewrite in_map_iff in *. destruct Hin as [y [Hy Hfy]].
  exists y. split; [exact Hy|]. apply filter_In in Hfy. apply Hfy.
Qed.

Lemma seq_offset : forall n d, map (fun k => (k + d)%nat) (seq 0 n) = seq d n.
Proof.
  intros n d. induction d as [|d IH].
  - rewrite <- (map_id (seq 0 n)) at 2. apply map_ext. intros k. lia.
  - rewrite <- seq_shift, <- IH, map_map. apply map_ext. intros k. lia.
Qed.

Lemma pairwise_distinct_nth : forall l i j x y,
  pairwise_distinct l = true ->
  i <> j -> nth_error l i = Some x -> nth_error l j = Some y ->
  strict_eq x y = false.
Proof.
  induction l as [|h rest IH]; intros i j x y Hl Hij Hi Hj;
    [destruct i; discriminate Hi|].
  cbn [pairwise_distinct] in Hl. apply andb_true_iff in Hl.
  destruct Hl as [Hh Hrest]. rewrite forallb_forall in Hh.
  destruct i as [|i]; destruct j as [|j]; cbn [nth_error] in Hi, Hj.
  - contradiction.
  - injection Hi as <-. apply nth_error_In in Hj. apply Hh in Hj.
    apply andb_true_iff in Hj. destruct Hj as [Hj _].
    apply negb_true_iff. exact Hj.
  - injection Hj as <-. apply nth_error_In in Hi. apply Hh in Hi.
    apply andb_true_iff in Hi. destruct Hi as [_ Hi].
    apply negb_true_iff. exact Hi.
  - apply (IH i j x y Hrest); [lia | exact Hi | exact Hj].
Qed.

(** C9 (as amended).  Identifiers are whatever their sources yield.  The
    ids of the frames of an extraction that settles are, in frame order,
    the successive draws of [Math.random()] made during the extraction, so
    they are pairwise distinct for [===] whenever these draws are; a new
    segment has the reading of [Date.now()] for id and goes last, so adding
    one when [Date.now()] reads a value that no current segment has for id
    keeps the segment ids distinct, and removing a segment does too; and an
    id, once assigned, stays: every segment a handler passes on
    has the id of the segment the handler was called on, dispatching the
    updates of a handler leaves the ids of the list of segments, in order,
    unchanged, and every value an editor's segment takes has the
    [Date.now()] reading of its creation for id. *)
Theorem identifiers_follow_their_sources :
  (forall fuel w st video segment,
     videoRef w = Some video -> canvasRef w = true -> context2d w = true ->
     completion (extractFrames fuel segment w st) = Resolved tt ->
     let ids :=
       map Frame.id
         (Segment.frames (after (extractFrames fuel segment w st) segment)) in
     let drawn := map (Math_random w) (seq (draws st) (List.length ids)) in
     ids = drawn
     /\ (pairwise_distinct drawn = true ->
         pairwise_distinct ids = true
         /\ forall i j x y,
              i <> j -> nth_error ids i = Some x -> nth_error ids j = Some y ->
              strict_eq x y = false))
  /\ (forall now segments,
        map Segment.id (handleVideoUpload now) = [now]
        /\ map Segment.id (addSegment now segments)
           = map Segment.id segments ++ [now]
        /\ (NoDup (map Segment.id segments) ->
            (~ In now (map Segment.id segments) ->
             NoDup (map Segment.id (addSegment now segments)))
            /\ forall id, NoDup (map Segment.id (removeSegment id segments))))
  /\ (forall a segment w st segments,
        Forall (fun u => Segment.id u = Segment.id segment)
          (updates (trace (perform a segment w st)))
        /\ map Segment.id (dispatch (trace (perform a segment w st)) segments)
           = map Segment.id segments)
  /\ (forall ok now segment,
        reachable ok now segment -> Segment.id segment = now).
Proof.
  split; [|split; [|split; [|exact reachable_id]]].
  - intros fuel w st video segment Hv Hc Hx Hdone ids drawn.
    destruct (@extractFrames_settled fuel w st video segment Hv Hc Hx Hdone)
      as [n [Hfs _]].
    assert (Hids : ids = drawn).
    { unfold drawn, ids. rewrite Hfs.
      rewrite !length_map, length_seq, map_map.
      rewrite <- (seq_offset n (draws st)), map_map. reflexivity. }
    split; [exact Hids|].
    intros Hdistinct. rewrite Hids.
    split; [exact Hdistinct|].
    intros i j x y. apply pairwise_distinct_nth. exact Hdistinct.
  - intros now segments.
    split; [reflexivity|].
    split; [unfold addSegment; rewrite map_app; reflexivity|].
    intros Hnodup. split.
    + intros Hfresh. unfold addSegment. rewrite map_app. simpl.
      apply NoDup_app; [exact Hnodup | constructor; [intros []|constructor]|].
      intros x Hx [E|[]]. subst x. exact (Hfresh Hx).
    + intros id. apply removeSegment_ids, Hnodup.
  - intros a segment w st segments. split.
    + apply perform_keeps_id.
    + apply dispatch_ids.
Qed.

Lemma identifiers_follow_their_sources_witness :
  (let ids :=
     map Frame.id
       (Segment.frames (after (extractFrames 12 created sunny fresh) created)) in
   ids = map (Math_random sunny) (seq 0 11)
   /\ pairwise_distinct ids = true
   /\ strict_eq (nth 0 ids zero) (nth 10 ids zero) = false)
  /\ map Segment.id
       (addSegment 1700000000001%Z (handleVideoUpload 1700000000000%Z))
     = [1700000000000%Z; 1700000000001%Z]
  /\ NoDup (map Segment.id
              (addSegment 1700000000001%Z (handleVideoUpload 1700000000000%Z)))
  /\ Segment.id finished = 1700000000000%Z.
Proof.
  split; [|split; [|split]].
  - assert (Hdone : completion (extractFrames 12 created sunny fresh) = Resolved tt)
      by (vm_compute; reflexivity).
    destruct (proj1 identifiers_follow_their_sources 12 sunny fresh (clip five)
                created eq_refl eq_refl eq_refl Hdone) as [Hids Hdistinct].
    assert (Hdrawn : pairwise_distinct
                       (map (Math_random sunny)
                          (seq (draws fresh)
                             (List.length
                                (map Frame.id
                                   (Segment.frames
                                      (after (extractFrames 12 created sunny fresh)
                                         created))))))
                     = true)
      by (vm_compute; reflexivity).
    destruct (Hdistinct Hdrawn) as [Hpair Hnth].
    split; [rewrite Hids; vm_compute; reflexivity|].
    split; [exact Hpair|].
    apply (Hnth 0%nat 10%nat); [discriminate | vm_compute; reflexivity
                               | vm_compute; reflexivity].
  - exact (proj1 (proj2 (proj1 (proj2 identifiers_follow_their_sources)
                            1700000000001%Z
                            (handleVideoUpload 1700000000000%Z)))).
  - refine (proj1 (proj2 (proj2 (proj1 (proj2 identifiers_follow_their_sources)
                                   1700000000001%Z
                                   (handleVideoUpload 1700000000000%Z))) _) _).
    + simpl. constructor; [intros H; exact H | constructor].
    + simpl. intros [H|H]; [discriminate H | exact H].
  - exact (proj2 (proj2 (proj2 identifiers_follow_their_sources))
             (fun _ => True) 1700000000000%Z finished finished_reachable).
Defined.

(** C9 fails as stated: two segments created within the same millisecond
    share their id, and a random source that repeats a value yields two
    frames with the same id. *)
Lemma identifiers_can_collide :
  ~ NoDup (map Segment.id
             (addSegment 1700000000000%Z (handleVideoUpload 1700000000000%Z)))
  /\ (let w := {| videoRef := Some (clip five); canvasRef := true;
                  context2d := true;
                  Math_random := fun _ => div one (ofZ 2);
                  fetched_worker := None;
                  image_loads := fun _ => true;
                  encoder_outcome := fun _ _ _ => Pending;
                  ai_outcome := fun _ _ _ => Pending;
                  second_rejects_first := false |} in
      let fs := Segment.frames (after (extractFrames 12 created w fresh) created) in
      List.length fs = 11%nat
      /\ strict_eq (Frame.id (nth 0 fs frame1)) (Frame.id (nth 1 fs frame1)) = true).
Proof.
  split.
  - simpl. intros H. inversion H as [|x l Hnotin Hrest]; subst.
    apply Hnotin. left. reflexivity.
  - cbv zeta. split; vm_compute; reflexivity.
Qed.

(** * Further properties of the sources *)

(** ** geminiService.ts *)

Lemma string_app_assoc : forall a b c : string,
  ((a ++ b) ++ c)%string = (a ++ (b ++ c))%string.
Proof.
  induction a as [|x a IH]; intros b c; simpl; [reflexivity|].
  rewrite IH. reflexivity.
Qed.

Lemma occurs_append : forall c a b,
  occurs c (a ++ b)%string = occurs c a || occurs c b.
Proof.
  induction a as [|x a IH]; intros b; simpl; [reflexivity|].
  rewrite IH, orb_assoc. reflexivity.
Qed.

Lemma split_absent : forall sep s,
  occurs sep s = false -> split sep s = [s].
Proof.
  induction s as [|c s IH]; intros H; simpl in *; [reflexivity|].
  apply orb_false_elim in H. destruct H as [Hc Hs].
  rewrite Hc, (IH Hs). reflexivity.
Qed.

Lemma split_at_first : forall sep a b,
  occurs sep a = false ->
  split sep (a ++ String sep b)%string = a :: split sep b.
Proof.
  induction a as [|c a IH]; intros b H; simpl in *.
  - rewrite Ascii.eqb_refl. reflexivity.
  - apply orb_false_elim in H. destruct H as [Hc Ha].
    rewrite Hc, (IH b Ha). reflexivity.
Qed.

Lemma split_pieces_absent : forall c sep s piece,
  occurs c s = false -> In piece (split sep s) -> occurs c piece = false.
Proof.
  induction s as [|x s IH]; intros piece H Hin; simpl in *.
  - destruct Hin as [<-|[]]. reflexivity.
  - apply orb_false_elim in H. destruct H as [Hx Hs].
    destruct (Ascii.eqb x sep).
    + destruct Hin as [<-|Hin]; [reflexivity | apply IH; assumption].
    + destruct (split sep s) as [|p ps] eqn:E.
      * destruct Hin as [<-|[]]. simpl. rewrite Hx. reflexivity.
      * destruct Hin as [<-|Hin].
        -- simpl. rewrite Hx. apply IH; [exact Hs | left; reflexivity].
        -- apply IH; [exact Hs | right; exact Hin].
Qed.

Lemma split_nonempty : forall sep s, split sep s <> [].
Proof.
  intros sep s. destruct s as [|c s]; simpl; [discriminate|].
  destruct (Ascii.eqb c sep); [discriminate|].
  destruct (split sep s); discriminate.
Qed.

(** X1.  A data URL of the shape [data:<mime>;<encoding>,<payload>], where
    the mime type holds no colon, semicolon or comma, the encoding no colon
    or comma and the payload no comma, is turned into the part whose
    [mimeType] is the mime type and whose [data] is the payload. *)
Theorem dataUrlToGeminiPart_well_formed : forall mime encoding payload,
  occurs ":" mime = false -> occurs ";" mime = false -> occurs "," mime = false ->
  occurs ":" encoding = false -> occurs "," encoding = false ->
  occurs "," payload = false ->
  dataUrlToGeminiPart
    ("data:" ++ mime ++ ";" ++ encoding ++ "," ++ payload)%string
  = inr {| mimeType := mime; data := Some payload |}.
Proof.
  intros mime encoding payload Hm1 Hm2 Hm3 He1 He2 Hp.
  unfold dataUrlToGeminiPart.
  assert (Hsplit : split ","
            ("data:" ++ mime ++ ";" ++ encoding ++ "," ++ payload)%string
          = [("data:" ++ mime ++ ";" ++ encoding)%string; payload]).
  { replace ("data:" ++ mime ++ ";" ++ encoding ++ "," ++ payload)%string
      with (("data:" ++ mime ++ ";" ++ encoding) ++ String "," payload)%string.
    - rewrite split_at_first, (split_absent _ _ Hp); [reflexivity|].
      rewrite !occurs_append, Hm3, He2. reflexivity.
    - rewrite !string_app_assoc. reflexivity. }
  rewrite Hsplit. cbn [nth nth_error].
  assert (Hcolon : split ":" ("data:" ++ mime ++ ";" ++ encoding)%string
                   = ["data"%string; (mime ++ ";" ++ encoding)%string]).
  { change ("data:" ++ mime ++ ";" ++ encoding)%string
      with ("data" ++ String ":" (mime ++ ";" ++ encoding))%string.
    rewrite split_at_first by reflexivity.
    rewrite split_absent; [reflexivity|].
    rewrite !occurs_append, Hm1, He1. reflexivity. }
  rewrite Hcolon. cbn [nth_error].
  change (mime ++ ";" ++ encoding)%string
    with (mime ++ String ";" encoding)%string.
  rewrite split_at_first by exact Hm2. reflexivity.
Qed.

Lemma dataUrlToGeminiPart_well_formed_witness :
  dataUrlToGeminiPart (jpeg "AAAA")
  = inr {| mimeType := "image/jpeg"; data := Some "/9j/AAAA"%string |}.
Proof.
  exact (@dataUrlToGeminiPart_well_formed "image/jpeg" "base64" "/9j/AAAA"
           eq_refl eq_refl eq_refl eq_refl eq_refl eq_refl).
Defined.

(** X2.  A string without any colon is no data URL: [dataUrlToGeminiPart]
    throws on it (the [TypeError] of calling [split] on [undefined]). *)
Theorem dataUrlToGeminiPart_without_colon_throws : forall dataUrl,
  occurs ":" dataUrl = false ->
  dataUrlToGeminiPart dataUrl = inl TypeError_split.
Proof.
  intros dataUrl H. unfold dataUrlToGeminiPart.
  assert (Hheader : occurs ":" (nth 0 (split "," dataUrl) EmptyString) = false).
  { destruct (split "," dataUrl) as [|header rest] eqn:E;
      [exfalso; exact (split_nonempty _ _ E)|].
    apply (@split_pieces_absent ":" "," dataUrl header H).
    rewrite E. left. reflexivity. }
  rewrite (split_absent _ _ Hheader). reflexivity.
Qed.

Lemma dataUrlToGeminiPart_without_colon_throws_witness :
  dataUrlToGeminiPart "image/jpeg;base64,AAAA" = inl TypeError_split.
Proof.
  exact (@dataUrlToGeminiPart_without_colon_throws "image/jpeg;base64,AAAA"
           eq_refl).
Defined.

Lemma imageParts_all : forall (f : string -> InlineData) urls,
  (forall url, In url urls -> dataUrlToGeminiPart url = inr (f url)) ->
  imageParts urls = inr (map f urls).
Proof.
  induction urls as [|url urls IH]; intros H; simpl; [reflexivity|].
  rewrite (H url (or_introl eq_refl)), IH; [reflexivity|].
  intros u Hu. apply H. right. exact Hu.
Qed.

Lemma imageParts_first_throw : forall (f : string -> InlineData) good bad rest e,
  (forall url, In url good -> dataUrlToGeminiPart url = inr (f url)) ->
  dataUrlToGeminiPart bad = inl e ->
  imageParts (good ++ bad :: rest) = inl e.
Proof.
  induction good as [|url good IH]; intros bad rest e H Hbad; simpl.
  - rewrite Hbad. reflexivity.
  - rewrite (H url (or_introl eq_refl)), (IH bad rest e); [reflexivity| |exact Hbad].
    intros u Hu. apply H. right. exact Hu.
Qed.

(** X3.  When one of the frame URLs makes [dataUrlToGeminiPart] throw, the
    caption promise is rejected with that very error, not with the
    service's own message, and the model is never called. *)
Theorem generateDescriptionForFrames_bad_url_escapes :
  forall (f : string -> InlineData) good bad rest e w st,
    (forall url, In url good -> dataUrlToGeminiPart url = inr (f url)) ->
    dataUrlToGeminiPart bad = inl e ->
    generateDescriptionForFrames (good ++ bad :: rest) w st
    = {| completion := Rejected e; final := st; trace := [] |}.
Proof.
  intros f good bad rest e w st Hgood Hbad.
  unfold generateDescriptionForFrames.
  rewrite (@imageParts_first_throw f good bad rest e Hgood Hbad). reflexivity.
Qed.

Lemma generateDescriptionForFrames_bad_url_escapes_witness :
  generateDescriptionForFrames [jpeg "AAAA"; "AAAA"%string; jpeg "BBBB"] sunny fresh
  = {| completion := Rejected TypeError_split; final := fresh; trace := [] |}.
Proof.
  refine (@generateDescriptionForFrames_bad_url_escapes
            (fun _ => {| mimeType := "image/jpeg"; data := Some "/9j/AAAA"%string |})
            [jpeg "AAAA"] "AAAA"%string [jpeg "BBBB"] TypeError_split
            sunny fresh _ eq_refl).
  intros url [<-|[]]. reflexivity.
Defined.

(** X4.  For frame URLs that all convert, the caption service calls the
    model exactly once, with one part per frame in frame order; it resolves
    with the model's text as it is, and whatever makes the model call fail,
    it rejects with the one message "The AI model failed to generate a
    description.". *)
Theorem generateDescriptionForFrames_calls_model_once :
  forall (f : string -> InlineData) urls w st,
    (forall url, In url urls -> dataUrlToGeminiPart url = inr (f url)) ->
    let r := generateDescriptionForFrames urls w st in
    trace r = [generateContent gemini_model gemini_prompt (map f urls)]
    /\ final r = st
    /\ (forall text,
          ai_outcome w gemini_model gemini_prompt (map f urls) = Resolved text ->
          completion r = Resolved text)
    /\ (forall reason,
          ai_outcome w gemini_model gemini_prompt (map f urls) = Rejected reason ->
          completion r
          = Rejected (ErrorObj "The AI model failed to generate a description.")).
Proof.
  intros f urls w st H r.
  destruct (generateDescriptionForFrames_run urls w st) as [Hc [Hf Ht]].
  fold r in Hc, Hf, Ht. unfold captionOutcome in Hc.
  rewrite (@imageParts_all f urls H) in Hc, Ht.
  split; [exact Ht|]. split; [exact Hf|].
  split; intros x Hx; rewrite Hx in Hc; exact Hc.
Qed.

Lemma generateDescriptionForFrames_calls_model_once_witness :
  trace (generateDescriptionForFrames [jpeg "AAAA"] sunny fresh)
  = [generateContent gemini_model gemini_prompt
       [{| mimeType := "image/jpeg"; data := Some "/9j/AAAA"%string |}]].
Proof.
  refine (proj1 (@generateDescriptionForFrames_calls_model_once
            (fun _ => {| mimeType := "image/jpeg"; data := Some "/9j/AAAA"%string |})
            [jpeg "AAAA"] sunny fresh _)).
  intros url [<-|[]]. reflexivity.
Defined.

(** ** getWorkerScriptUrl *)

(** X5.  The worker script is fetched once: when the fetch succeeds, the
    call resolves with the blob URL after a single fetch, and every later
    call, in whatever world, resolves with the same URL without fetching
    and without touching the module state. *)
Theorem getWorkerScriptUrl_fetches_once : forall w w' st blobUrl,
  workerScriptBlobUrl st = None ->
  fetched_worker w = Some blobUrl ->
  truthy blobUrl = true ->
  let first := getWorkerScriptUrl w st in
  let second := getWorkerScriptUrl w' (final first) in
  completion first = Resolved blobUrl
  /\ trace first = [fetchWorkerScript]
  /\ draws (final first) = draws st
  /\ second = {| completion := Resolved blobUrl; final := final first; trace := [] |}.
Proof.
  intros w w' st blobUrl Hcache Hfetch Htruthy first second.
  subst first second.
  unfold getWorkerScriptUrl, fetchWorkerScriptUrl, bind, get, put, ask, emit,
    ret; simpl.
  rewrite Hcache; simpl. rewrite Hfetch; simpl. rewrite Htruthy.
  repeat split.
Qed.

Lemma getWorkerScriptUrl_fetches_once_witness :
  getWorkerScriptUrl (studio None false Pending Pending)
    (final (getWorkerScriptUrl sunny fresh))
  = {| completion := Resolved "blob:worker"%string;
       final := final (getWorkerScriptUrl sunny fresh); trace := [] |}.
Proof.
  exact (proj2 (proj2 (proj2
    (@getWorkerScriptUrl_fetches_once sunny (studio None false Pending Pending)
       fresh "blob:worker" eq_refl eq_refl eq_refl)))).
Defined.

(** X6.  When the fetch fails and nothing is cached, the call still resolves,
    with the CDN URL, and caches nothing; so the next call fetches again,
    and if that fetch succeeds it resolves with the blob URL and caches
    it. *)
Theorem getWorkerScriptUrl_retries_after_failure : forall w w' st blobUrl,
  workerScriptBlobUrl st = None ->
  fetched_worker w = None ->
  fetched_worker w' = Some blobUrl ->
  let first := getWorkerScriptUrl w st in
  let second := getWorkerScriptUrl w' (final first) in
  first = {| completion := Resolved worker_cdn_url; final := st;
             trace := [fetchWorkerScript] |}
  /\ completion second = Resolved blobUrl
  /\ trace second = [fetchWorkerScript]
  /\ workerScriptBlobUrl (final second) = Some blobUrl.
Proof.
  intros w w' st blobUrl Hcache Hfail Hfetch first second.
  assert (Hfirst : first = {| completion := Resolved worker_cdn_url; final := st;
                              trace := [fetchWorkerScript] |}).
  { subst first.
    unfold getWorkerScriptUrl, fetchWorkerScriptUrl, bind, get, put, ask, emit,
      ret; simpl.
    rewrite Hcache; simpl. rewrite Hfail; simpl. reflexivity. }
  split; [exact Hfirst|].
  subst second. rewrite Hfirst. cbn [final].
  unfold getWorkerScriptUrl, fetchWorkerScriptUrl, bind, get, put, ask, emit,
    ret; simpl.
  rewrite Hcache; simpl. rewrite Hfetch; simpl. repeat split.
Qed.

Lemma getWorkerScriptUrl_retries_after_failure_witness :
  let offline :=
    {| videoRef := None; canvasRef := false; context2d := false;
       Math_random := fun _ => zero; fetched_worker := None;
       image_loads := fun _ => true;
       encoder_outcome := fun _ _ _ => Pending;
       ai_outcome := fun _ _ _ => Pending;
       second_rejects_first := false |} in
  completion (getWorkerScriptUrl sunny (final (getWorkerScriptUrl offline fresh)))
  = Resolved "blob:worker"%string.
Proof.
  exact (proj1 (proj2
    (@getWorkerScriptUrl_retries_after_failure
       {| videoRef := None; canvasRef := false; context2d := false;
          Math_random := fun _ => zero; fetched_worker := None;
          image_loads := fun _ => true;
          encoder_outcome := fun _ _ _ => Pending;
          ai_outcome := fun _ _ _ => Pending;
          second_rejects_first := false |}
       sunny fresh "blob:worker" eq_refl eq_refl eq_refl))).
Defined.

(** ** extractFrames, further *)

Lemma seeks_app : forall tr1 tr2, seeks (tr1 ++ tr2) = seeks tr1 ++ seeks tr2.
Proof.
  induction tr1 as [|e tr1 IH]; intros tr2; [reflexivity|].
  destruct e; simpl; rewrite IH; reflexivity.
Qed.

Lemma sampleLoop_seeks : forall fuel video e w t acc st fs,
  completion (sampleLoop fuel video t e acc w st) = Resolved fs ->
  map Frame.timestamp fs
  = map Frame.timestamp acc ++ seeks (trace (sampleLoop fuel video t e acc w st)).
Proof.
  induction fuel as [|fuel IH]; intros video e w t acc st fs Hrun;
    [discriminate|].
  destruct (le t e) eqn:G.
  - rewrite (sampleLoop_guard_true fuel video t e acc w st G) in Hrun |- *.
    cbn [completion trace] in Hrun |- *.
    rewrite (IH _ _ _ _ _ _ _ Hrun).
    rewrite map_app, <- app_assoc. reflexivity.
  - rewrite sampleLoop_guard_false in Hrun |- * by exact G.
    injection Hrun as <-. cbn [trace seeks]. rewrite app_nil_r. reflexivity.
Qed.

(** X7.  In an extraction that settles, the video is sought once per stored
    frame, in frame order, and to exactly the time the frame is stamped
    with. *)
Theorem extractFrames_seeks_each_timestamp : forall fuel w st video segment,
  videoRef w = Some video -> canvasRef w = true -> context2d w = true ->
  let r := extractFrames fuel segment w st in
  completion r = Resolved tt ->
  seeks (trace r) = map Frame.timestamp (Segment.frames (after r segment)).
Proof.
  intros fuel w st video segment Hv Hc Hx r Hdone. subst r.
  pose proof (@extractFrames_run fuel w st video segment Hv Hc Hx) as Hrun.
  cbv zeta in Hrun.
  unfold after.
  destruct (completion (sampleLoop fuel video _ _ [] w st)) as [fs|e|] eqn:Hloop.
  - destruct Hrun as [_ Hups]. rewrite Hups. cbn [last extractionFinished Segment.frames].
    rewrite (sampleLoop_seeks _ _ _ _ _ _ _ Hloop). cbn [map app].
    unfold extractFrames, bind, ask, emit; simpl.
    rewrite Hv, Hc, Hx; simpl. rewrite Hloop; simpl.
    rewrite seeks_app. simpl. rewrite app_nil_r. reflexivity.
  - rewrite Hrun in Hdone. discriminate.
  - destruct Hrun as [Hp _]. rewrite Hp in Hdone. discriminate.
Qed.

Lemma extractFrames_seeks_each_timestamp_witness :
  seeks (trace (extractFrames 12 created sunny fresh))
  = map Frame.timestamp
      (Segment.frames (after (extractFrames 12 created sunny fresh) created)).
Proof.
  refine (@extractFrames_seeks_each_timestamp 12 sunny fresh (clip five) created
            eq_refl eq_refl eq_refl _).
  vm_compute. reflexivity.
Defined.

(** X8.  A settled extraction replaces the frames and the status only: the
    segment ends up with the selection, description, [gifUrl], [error], id
    and time range of the segment the handler was called on, although its
    own first update had emptied the selection and the description. *)
Theorem extractFrames_restores_closed_over_fields :
  forall fuel w st video segment,
    videoRef w = Some video -> canvasRef w = true -> context2d w = true ->
    let r := extractFrames fuel segment w st in
    completion r = Resolved tt ->
    exists started fs,
      updates (trace r) = [started; extractionFinished segment fs]
      /\ Segment.selectedFrameRange started = FrameRange.mk None None
      /\ Segment.gifDescription started = EmptyString
      /\ Segment.selectedFrameRange (after r segment)
         = Segment.selectedFrameRange segment
      /\ Segment.gifDescription (after r segment) = Segment.gifDescription segment
      /\ Segment.gifUrl (after r segment) = Segment.gifUrl segment
      /\ Segment.error (after r segment) = Segment.error segment
      /\ Segment.id (after r segment) = Segment.id segment
      /\ Segment.timeRange (after r segment) = Segment.timeRange segment
      /\ Segment.status (after r segment) = Status.frames_ready.
Proof.
  intros fuel w st video segment Hv Hc Hx r Hdone. subst r.
  pose proof (@extractFrames_run fuel w st video segment Hv Hc Hx) as Hrun.
  cbv zeta in Hrun. unfold after.
  destruct (completion (sampleLoop fuel video _ _ [] w st)) as [fs|e|].
  - destruct Hrun as [_ Hups]. rewrite Hups.
    exists (extractionStarted segment), fs. repeat split.
  - rewrite Hrun in Hdone. discriminate.
  - destruct Hrun as [Hp _]. rewrite Hp in Hdone. discriminate.
Qed.

Lemma extractFrames_restores_closed_over_fields_witness :
  exists started fs,
    updates (trace (extractFrames 12 finished sunny fresh))
    = [started; extractionFinished finished fs]
    /\ Segment.selectedFrameRange started = FrameRange.mk None None
    /\ Segment.gifDescription started = EmptyString
    /\ Segment.selectedFrameRange (after (extractFrames 12 finished sunny fresh) finished)
       = Segment.selectedFrameRange finished
    /\ Segment.gifDescription (after (extractFrames 12 finished sunny fresh) finished)
       = Segment.gifDescription finished
    /\ Segment.gifUrl (after (extractFrames 12 finished sunny fresh) finished)
       = Segment.gifUrl finished
    /\ Segment.error (after (extractFrames 12 finished sunny fresh) finished)
       = Segment.error finished
    /\ Segment.id (after (extractFrames 12 finished sunny fresh) finished)
       = Segment.id finished
    /\ Segment.timeRange (after (extractFrames 12 finished sunny fresh) finished)
       = Segment.timeRange finished
    /\ Segment.status (after (extractFrames 12 finished sunny fresh) finished)
       = Status.frames_ready.
Proof.
  refine (@extractFrames_restores_closed_over_fields 12 sunny fresh (clip five)
            finished eq_refl eq_refl eq_refl _).
  vm_compute. reflexivity.
Defined.

(** X9.  When [start <= end] is false from the outset (the start lies after
    the end, or one of them is NaN), the extraction settles at the first
    loop test with no frame and no seek, and the segment becomes
    [frames_ready] with an empty frame list. *)
Theorem extractFrames_empty_range : forall fuel w st video segment,
  videoRef w = Some video -> canvasRef w = true -> context2d w = true ->
  le (TimeRange.start (Segment.timeRange segment))
     (TimeRange.end_ (Segment.timeRange segment)) = false ->
  extractFrames (S fuel) segment w st
  = {| completion := Resolved tt; final := st;
       trace := [onUpdate (extractionStarted segment);
                 onUpdate (extractionFinished segment [])] |}.
Proof.
  intros fuel w st video segment Hv Hc Hx Hle.
  unfold extractFrames, bind, ask, emit; simpl.
  rewrite Hv, Hc, Hx; simpl. rewrite Hle. reflexivity.
Qed.

Lemma extractFrames_empty_range_witness :
  let backwards := with_timeRange created (TimeRange.mk one zero) in
  extractFrames 1 backwards sunny fresh
  = {| completion := Resolved tt; final := fresh;
       trace := [onUpdate (extractionStarted backwards);
                 onUpdate (extractionFinished backwards [])] |}.
Proof.
  exact (@extractFrames_empty_range 0 sunny fresh (clip five)
           (with_timeRange created (TimeRange.mk one zero))
           eq_refl eq_refl eq_refl eq_refl).
Defined.

Lemma sampleLoop_stalls : forall fuel video e w t acc st,
  add t interval = t -> le t e = true ->
  completion (sampleLoop fuel video t e acc w st) = Pending
  /\ updates (trace (sampleLoop fuel video t e acc w st)) = [].
Proof.
  induction fuel as [|fuel IH]; intros video e w t acc st Hstall Hle.
  - split; reflexivity.
  - rewrite (sampleLoop_guard_true fuel video t e acc w st Hle).
    cbn [completion trace updates]. rewrite Hstall. apply IH; assumption.
Qed.

(** X10.  When the start time is so large that adding 1/10 to it rounds back
    to itself, and it is [<= end], the loop variable never advances: with
    whatever fuel the extraction does not settle, and the segment stays in
    status [extracting]. *)
Theorem extractFrames_stalls_on_large_times : forall fuel w st video segment,
  videoRef w = Some video -> canvasRef w = true -> context2d w = true ->
  add (TimeRange.start (Segment.timeRange segment)) interval
  = TimeRange.start (Segment.timeRange segment) ->
  le (TimeRange.start (Segment.timeRange segment))
     (TimeRange.end_ (Segment.timeRange segment)) = true ->
  let r := extractFrames fuel segment w st in
  completion r = Pending
  /\ updates (trace r) = [extractionStarted segment]
  /\ Segment.status (after r segment) = Status.extracting.
Proof.
  intros fuel w st video segment Hv Hc Hx Hstall Hle r. subst r.
  pose proof (@extractFrames_run fuel w st video segment Hv Hc Hx) as Hrun.
  cbv zeta in Hrun.
  destruct (@sampleLoop_stalls fuel video _ w _ [] st Hstall Hle) as [Hp _].
  rewrite Hp in Hrun. destruct Hrun as [Hpending Hups].
  unfold after. rewrite Hups. repeat split; assumption.
Qed.

Lemma extractFrames_stalls_on_large_times_witness :
  let far := with_timeRange created
               (TimeRange.mk (ofZ (2 ^ 60)) (ofZ (2 ^ 61))) in
  completion (extractFrames 1000 far sunny fresh) = Pending.
Proof.
  exact (proj1 (@extractFrames_stalls_on_large_times 1000 sunny fresh (clip five)
                  (with_timeRange created
                     (TimeRange.mk (ofZ (2 ^ 60)) (ofZ (2 ^ 61))))
                  eq_refl eq_refl eq_refl eq_refl eq_refl)).
Defined.

(** ** handleRangeChange and handleLoadedMetadata, further *)

Lemma lt_nan_l : forall x, lt S754_nan x = false.
Proof. reflexivity. Qed.

Lemma lt_nan_r : forall x, lt x S754_nan = false.
Proof. intros x; destruct x; reflexivity. Qed.

(** X11.  A slider value that does not parse ([parseFloat] yields NaN) is
    ignored whichever end it was typed for and whatever the range is: the
    handler makes no call at all. *)
Theorem handleRangeChange_ignores_NaN : forall part segment w st,
  handleRangeChange S754_nan part segment w st
  = {| completion := Resolved tt; final := st; trace := [] |}.
Proof.
  intros part segment w st. apply handleRangeChange_rejects; intros _.
  - apply lt_nan_l.
  - unfold gt. apply lt_nan_r.
Qed.

Lemma lt_le : forall x y, lt x y = true -> le x y = true.
Proof.
  intros x y. unfold lt, le, SFltb, SFleb.
  destruct (SFcompare x y) as [[| |]|]; intros H; try discriminate H; reflexivity.
Qed.

Lemma le_refl : forall x, isNaN x = false -> le x x = true.
Proof.
  intros x Hx. unfold le, SFleb.
  destruct x as [s|s| |s m e]; try discriminate Hx; try (destruct s; reflexivity).
  simpl. rewrite Z.compare_refl.
  change (Pos.compare_cont Eq m m) with (Pos.compare m m).
  rewrite Pos.compare_refl. destruct s; reflexivity.
Qed.

Lemma SFcompare_antisym : forall x y,
  SFcompare y x
  = match SFcompare x y with Some c => Some (CompOpp c) | None => None end.
Proof.
  intros x y.
  destruct x as [sx|sx| |sx mx ex]; destruct y as [sy|sy| |sy my ey];
    try (destruct sx); try (destruct sy); try reflexivity;
    cbn [SFcompare]; rewrite (Z.compare_antisym ey ex);
    destruct (Z.compare ey ex); cbn [CompOpp]; try reflexivity;
    change (PosDef.Pos.compare_cont Eq my mx) with (Pos.compare_cont Eq my mx);
    change (PosDef.Pos.compare_cont Eq mx my)
      with (Pos.compare_cont (CompOpp Eq) mx my);
    rewrite <- (Pos.compare_cont_antisym my mx Eq);
    destruct (Pos.compare_cont Eq my mx); reflexivity.
Qed.

Lemma le_of_not_lt : forall x y,
  isNaN x = false -> isNaN y = false -> lt y x = false -> le x y = true.
Proof.
  intros x y Hx Hy. unfold lt, le, SFltb, SFleb.
  rewrite (SFcompare_antisym x y).
  destruct (SFcompare x y) as [[| |]|] eqn:E; cbn [CompOpp];
    intros H; try discriminate H; try reflexivity.
  destruct x; destruct y; try discriminate Hx; try discriminate Hy;
    discriminate E.
Qed.

Lemma loaded_default : forall segment w st video,
  videoRef w = Some video ->
  strict_eq (TimeRange.end_ (Segment.timeRange segment)) one = true ->
  loaded w st segment
  = with_timeRange segment (TimeRange.mk zero (Math_min five (duration video))).
Proof.
  intros segment w st video Hv Hend.
  unfold loaded, after, handleLoadedMetadata, bind, ask, emit, ret; simpl.
  rewrite Hv; simpl. rewrite Hend. reflexivity.
Qed.

Lemma loaded_kept : forall segment w st,
  strict_eq (TimeRange.end_ (Segment.timeRange segment)) one = false ->
  loaded w st segment = segment.
Proof.
  intros segment w st Hend.
  unfold loaded, after, handleLoadedMetadata, bind, ask, emit, ret; simpl.
  destruct (videoRef w); simpl; [rewrite Hend|]; reflexivity.
Qed.

(** X12.  The range a metadata load stores for a segment still at the
    default end starts at 0 and ends neither after 5 seconds nor after the
    end of the video, whatever the (non-NaN) duration is. *)
Theorem handleLoadedMetadata_default_within_video :
  forall segment w st video,
    videoRef w = Some video ->
    strict_eq (TimeRange.end_ (Segment.timeRange segment)) one = true ->
    isNaN (duration video) = false ->
    let r := Segment.timeRange (loaded w st segment) in
    TimeRange.start r = zero
    /\ le (TimeRange.end_ r) five = true
    /\ le (TimeRange.end_ r) (duration video) = true
    /\ (TimeRange.end_ r = five \/ TimeRange.end_ r = duration video).
Proof.
  intros segment w st video Hv Hend Hnan r. subst r.
  rewrite (@loaded_default segment w st video Hv Hend).
  cbn [with_timeRange Segment.timeRange TimeRange.start TimeRange.end_].
  split; [reflexivity|].
  assert (H5 : isNaN five = false) by reflexivity.
  unfold Math_min. rewrite H5, Hnan. cbn [orb].
  destruct (lt five (duration video)) eqn:G1.
  - split; [apply le_refl, H5|]. split; [apply lt_le, G1 | left; reflexivity].
  - assert (Hd : le (duration video) five = true)
      by (apply le_of_not_lt; assumption).
    destruct (lt (duration video) five) eqn:G2;
      [|change (isNegZero five) with false; cbn iota];
      (split; [exact Hd|]); (split; [apply le_refl, Hnan | right; reflexivity]).
Qed.

Lemma handleLoadedMetadata_default_within_video_witness :
  let w := studio (Some (clip (ofZ 3))) true Pending Pending in
  let r := Segment.timeRange (loaded w fresh created) in
  TimeRange.start r = zero
  /\ le (TimeRange.end_ r) five = true
  /\ le (TimeRange.end_ r) (ofZ 3) = true
  /\ (TimeRange.end_ r = five \/ TimeRange.end_ r = ofZ 3).
Proof.
  exact (@handleLoadedMetadata_default_within_video created
           (studio (Some (clip (ofZ 3))) true Pending Pending) fresh
           (clip (ofZ 3)) eq_refl eq_refl eq_refl).
Defined.

Lemma loaded_unmounted : forall segment w st,
  videoRef w = None -> loaded w st segment = segment.
Proof.
  intros segment w st Hv.
  unfold loaded, after, handleLoadedMetadata, bind, ask, emit, ret; simpl.
  rewrite Hv. reflexivity.
Qed.

(** X13.  A metadata load is idempotent: when the event fires again for the
    same video, the segment the first load left is left as it is. *)
Theorem handleLoadedMetadata_idempotent : forall segment w st st',
  loaded w st' (loaded w st segment) = loaded w st segment.
Proof.
  intros segment w st st'.
  destruct (videoRef w) as [video|] eqn:Hv;
    [|rewrite !loaded_unmounted by exact Hv; reflexivity].
  destruct (strict_eq (TimeRange.end_ (Segment.timeRange segment)) one) eqn:Hend.
  - rewrite (@loaded_default segment w st video Hv Hend).
    destruct (strict_eq (Math_min five (duration video)) one) eqn:Hagain.
    + rewrite (@loaded_default _ w st' video Hv); [reflexivity | exact Hagain].
    + apply loaded_kept. exact Hagain.
  - rewrite (loaded_kept segment w st Hend). apply loaded_kept, Hend.
Qed.

(** ** App.tsx *)

Lemma updateSegment_pointwise : forall u segments i,
  nth_error (updateSegment u segments) i
  = match nth_error segments i with
    | Some s => if (Segment.id s =? Segment.id u)%Z then Some u else Some s
    | None => None
    end.
Proof.
  intros u segments i. unfold updateSegment. rewrite nth_error_map.
  destruct (nth_error segments i) as [s|]; simpl; [|reflexivity].
  destruct (Segment.id s =? Segment.id u)%Z; reflexivity.
Qed.

(** X14.  With pairwise distinct ids, [updateSegment] replaces in place: the
    segment that has the id of the updated one gives way to it at its own
    position, every other position keeps its segment, and the list keeps
    its length. *)
Theorem updateSegment_replaces_in_place : forall u segments i s,
  NoDup (map Segment.id segments) ->
  nth_error segments i = Some s ->
  Segment.id s = Segment.id u ->
  nth_error (updateSegment u segments) i = Some u
  /\ (forall j, j <> i ->
        nth_error (updateSegment u segments) j = nth_error segments j)
  /\ List.length (updateSegment u segments) = List.length segments.
Proof.
  intros u segments i s Hnodup Hi Hid.
  split; [|split].
  - rewrite updateSegment_pointwise, Hi, Hid, Z.eqb_refl. reflexivity.
  - intros j Hj. rewrite updateSegment_pointwise.
    destruct (nth_error segments j) as [s'|] eqn:Ej; [|reflexivity].
    destruct (Z.eqb_spec (Segment.id s') (Segment.id u)) as [E|E];
      [|reflexivity].
    exfalso. apply Hj.
    rewrite NoDup_nth_error in Hnodup. apply Hnodup.
    + rewrite length_map. apply nth_error_Some. rewrite Ej. discriminate.
    + rewrite !nth_error_map, Ej, Hi. simpl. congruence.
  - unfold updateSegment. apply length_map.
Qed.

Lemma updateSegment_replaces_in_place_witness :
  nth_error
    (updateSegment finished [newSegment 1700000000001%Z; picked]) 1
  = Some finished.
Proof.
  refine (proj1 (@updateSegment_replaces_in_place finished
                   [newSegment 1700000000001%Z; picked] 1 picked _
                   eq_refl eq_refl)).
  simpl. constructor; [intros [H|[]]; discriminate H|].
  constructor; [intros []|constructor].
Defined.

Lemma removeSegment_In : forall id segments s,
  In s (removeSegment id segments) <-> In s segments /\ Segment.id s <> id.
Proof.
  intros id segments s. unfold removeSegment. rewrite filter_In.
  split; intros [Hin H]; (split; [exact Hin|]).
  - intros E. rewrite E, Z.eqb_refl in H. discriminate H.
  - destruct (Z.eqb_spec (Segment.id s) id); [contradiction | reflexivity].
Qed.

Lemma updateSegment_absent : forall u segments,
  ~ In (Segment.id u) (map Segment.id segments) ->
  updateSegment u segments = segments.
Proof.
  intros u segments. unfold updateSegment.
  induction segments as [|s rest IH]; intros H; simpl; [reflexivity|].
  destruct (Z.eqb_spec (Segment.id s) (Segment.id u)) as [E|E].
  - exfalso. apply H. left. exact E.
  - rewrite IH; [reflexivity|]. intros Hin. apply H. right. exact Hin.
Qed.

(** X15.  An update that arrives for a segment that has been removed in the
    meantime is dropped: it changes nothing in the list, and the same holds
    for all the updates of any handler that was running for that segment. *)
Theorem update_after_removal_is_dropped : forall a segment w st segments,
  (forall u, Segment.id u = Segment.id segment ->
     updateSegment u (removeSegment (Segment.id segment) segments)
     = removeSegment (Segment.id segment) segments)
  /\ dispatch (trace (perform a segment w st))
       (removeSegment (Segment.id segment) segments)
     = removeSegment (Segment.id segment) segments.
Proof.
  intros a segment w st segments.
  assert (Hdrop : forall u, Segment.id u = Segment.id segment ->
            updateSegment u (removeSegment (Segment.id segment) segments)
            = removeSegment (Segment.id segment) segments).
  { intros u Hu. apply updateSegment_absent. rewrite Hu.
    rewrite in_map_iff. intros [s [Hs Hin]].
    apply removeSegment_In in Hin. destruct Hin as [_ Hne]. exact (Hne Hs). }
  split; [exact Hdrop|].
  unfold dispatch.
  pose proof (perform_keeps_id a segment w st) as Hids.
  induction (updates (trace (perform a segment w st))) as [|u us IH];
    [reflexivity|].
  inversion Hids as [|x l Hu Hus]; subst.
  cbn [fold_left]. rewrite (Hdrop u Hu). apply IH, Hus.
Qed.

(** X16.  [removeSegment] removes exactly the segments with the given id,
    keeps the others in their order, and is idempotent; when the ids are
    pairwise distinct and the id is present, the list gets shorter by one,
    so a list of more than one segment is never emptied. *)
Theorem removeSegment_exact : forall id segments,
  (forall s, In s (removeSegment id segments)
             <-> In s segments /\ Segment.id s <> id)
  /\ removeSegment id (removeSegment id segments) = removeSegment id segments
  /\ (~ In id (map Segment.id segments) -> removeSegment id segments = segments)
  /\ (NoDup (map Segment.id segments) -> In id (map Segment.id segments) ->
      S (List.length (removeSegment id segments)) = List.length segments
      /\ (canRemove segments = true -> removeSegment id segments <> [])).
Proof.
  intros id segments.
  split; [intros s; apply removeSegment_In|].
  split.
  { unfold removeSegment. induction segments as [|s rest IH]; [reflexivity|].
    simpl. destruct (negb (Segment.id s =? id)%Z) eqn:E; simpl;
      [rewrite E, IH; reflexivity | exact IH]. }
  split.
  { unfold removeSegment. induction segments as [|s rest IH]; intros H;
      [reflexivity|]. simpl.
    destruct (Z.eqb_spec (Segment.id s) id) as [E|E]; simpl.
    - exfalso. apply H. left. exact E.
    - rewrite IH; [reflexivity|]. intros Hin. apply H. right. exact Hin. }
  intros Hnodup Hin.
  assert (Hlen : S (List.length (removeSegment id segments)) = List.length segments).
  { unfold removeSegment. induction segments as [|s rest IH]; [destruct Hin|].
    simpl in Hnodup. inversion Hnodup as [|x l Hnotin Hrest]; subst.
    simpl. destruct (Z.eqb_spec (Segment.id s) id) as [E|E]; simpl.
    - f_equal. clear IH Hin Hnodup Hrest.
      induction rest as [|r rest IH]; [reflexivity|]. simpl.
      destruct (Z.eqb_spec (Segment.id r) id) as [E'|E']; simpl.
      + exfalso. apply Hnotin. left. congruence.
      + f_equal. apply IH. intros H. apply Hnotin. right. exact H.
    - f_equal. apply IH; [exact Hrest|].
      destruct Hin as [H|H]; [contradiction | exact H]. }
  split; [exact Hlen|].
  unfold canRemove. intros Hcan E. rewrite E in Hlen. simpl in Hlen.
  apply Nat.ltb_lt in Hcan. lia.
Qed.

Lemma removeSegment_exact_witness :
  S (List.length (removeSegment 1700000000000%Z
                    (addSegment 1700000000001%Z (handleVideoUpload 1700000000000%Z))))
  = 2%nat.
Proof.
  refine (proj1 (proj2 (proj2 (proj2
            (removeSegment_exact 1700000000000%Z
               (addSegment 1700000000001%Z (handleVideoUpload 1700000000000%Z)))))
            _ _)).
  - simpl. constructor; [intros [H|[]]; discriminate H|].
    constructor; [intros []|constructor].
  - left. reflexivity.
Defined.

Lemma updateSegment_others : forall u segments s,
  Segment.id s <> Segment.id u -> In s segments -> In s (updateSegment u segments).
Proof.
  intros u segments s Hne Hin. unfold updateSegment.
  apply in_map_iff. exists s. split; [|exact Hin].
  destruct (Z.eqb_spec (Segment.id s) (Segment.id u)); [contradiction | reflexivity].
Qed.

(** X17.  Segments are isolated from one another: whatever a handler of one
    segment passes on, every segment with another id is still in the list,
    at its position, after the updates were dispatched. *)
Theorem dispatch_leaves_other_segments : forall a segment w st segments i other,
  Segment.id other <> Segment.id segment ->
  nth_error segments i = Some other ->
  nth_error (dispatch (trace (perform a segment w st)) segments) i = Some other.
Proof.
  intros a segment w st segments i other Hne.
  unfold dispatch.
  pose proof (perform_keeps_id a segment w st) as Hids.
  revert segments.
  induction (updates (trace (perform a segment w st))) as [|u us IH];
    intros segments Hnth; [exact Hnth|].
  inversion Hids as [|x l Hu Hus]; subst. unfold keeps_id in Hu.
  cbn [fold_left]. apply (IH Hus).
  rewrite updateSegment_pointwise, Hnth.
  destruct (Z.eqb_spec (Segment.id other) (Segment.id u)) as [E|E];
    [exfalso; apply Hne; congruence | reflexivity].
Qed.

Lemma dispatch_leaves_other_segments_witness :
  nth_error
    (dispatch (trace (perform GenerateGif picked sunny fresh))
       [picked; newSegment 1700000000001%Z]) 1
  = Some (newSegment 1700000000001%Z).
Proof.
  refine (@dispatch_leaves_other_segments GenerateGif picked sunny fresh
            [picked; newSegment 1700000000001%Z] 1
            (newSegment 1700000000001%Z) _ eq_refl).
  intros H. discriminate H.
Defined.

(** ** handleFrameSelection and getFrameClassName *)

Lemma selectFrame_frames : forall w st frameId segment,
  Segment.frames (selectFrame w st frameId segment) = Segment.frames segment.
Proof. intros; rewrite selectFrame_selection; reflexivity. Qed.

(** X18.  The click that completes a selection stores the two ids in frame
    order: whichever was clicked first, the index of the stored start is not
    greater than the index of the stored end; nothing but the selection
    changes. *)
Theorem handleFrameSelection_orders_pair : forall w st frameId segment s,
  FrameRange.start (Segment.selectedFrameRange segment) = Some s ->
  FrameRange.end_ (Segment.selectedFrameRange segment) = None ->
  exists x y,
    selectFrame w st frameId segment
    = with_selectedFrameRange segment (FrameRange.mk (Some x) (Some y))
    /\ (indexOfFrame (Segment.frames segment) x
        <= indexOfFrame (Segment.frames segment) y)%Z
    /\ ((x = s /\ y = frameId) \/ (x = frameId /\ y = s)).
Proof.
  intros w st frameId segment s Hs He.
  rewrite selectFrame_selection. cbv zeta. rewrite Hs, He.
  destruct (Z.ltb_spec (indexOfFrame (Segment.frames segment) frameId)
              (indexOfFrame (Segment.frames segment) s)) as [H|H].
  - exists frameId, s. split; [reflexivity|]. split; [lia|]. right. split; reflexivity.
  - exists s, frameId. split; [reflexivity|]. split; [lia|]. left. split; reflexivity.
Qed.

Lemma handleFrameSelection_orders_pair_witness :
  exists x y,
    selectFrame sunny fresh (Frame.id frame1)
      (with_selectedFrameRange picked (FrameRange.mk (Some (Frame.id frame3)) None))
    = with_selectedFrameRange
        (with_selectedFrameRange picked (FrameRange.mk (Some (Frame.id frame3)) None))
        (FrameRange.mk (Some x) (Some y))
    /\ (indexOfFrame (Segment.frames picked) x
        <= indexOfFrame (Segment.frames picked) y)%Z
    /\ ((x = Frame.id frame3 /\ y = Frame.id frame1)
        \/ (x = Frame.id frame1 /\ y = Frame.id frame3)).
Proof.
  exact (@handleFrameSelection_orders_pair sunny fresh (Frame.id frame1)
           (with_selectedFrameRange picked
              (FrameRange.mk (Some (Frame.id frame3)) None))
           (Frame.id frame3) eq_refl eq_refl).
Defined.

Lemma exportOf_pair : forall segment x y,
  exportOf (with_selectedFrameRange segment (FrameRange.mk (Some x) (Some y)))
  = Some (slice (Segment.frames segment)
            (Z.min (indexOfFrame (Segment.frames segment) x)
                   (indexOfFrame (Segment.frames segment) y))
            (Z.max (indexOfFrame (Segment.frames segment) x)
                   (indexOfFrame (Segment.frames segment) y) + 1)%Z).
Proof. reflexivity. Qed.

(** X19.  Starting from an empty selection, the frames that two clicks select
    for export do not depend on the order of the clicks: clicking [a] then
    [b] and clicking [b] then [a] both give the slice of [frames] between
    the smaller and the larger of the two indices. *)
Theorem export_independent_of_click_order :
  forall segment a b w1 st1 w2 st2 w3 st3 w4 st4,
    FrameRange.start (Segment.selectedFrameRange segment) = None ->
    let frames := Segment.frames segment in
    let span :=
      slice frames
        (Z.min (indexOfFrame frames a) (indexOfFrame frames b))
        (Z.max (indexOfFrame frames a) (indexOfFrame frames b) + 1)%Z in
    exportOf (selectFrame w2 st2 b (selectFrame w1 st1 a segment)) = Some span
    /\ exportOf (selectFrame w4 st4 a (selectFrame w3 st3 b segment)) = Some span.
Proof.
  intros segment a b w1 st1 w2 st2 w3 st3 w4 st4 Hs frames span.
  assert (Hone : forall w st w' st' x y,
            exportOf (selectFrame w' st' y (selectFrame w st x segment))
            = Some (slice frames
                      (Z.min (indexOfFrame frames x) (indexOfFrame frames y))
                      (Z.max (indexOfFrame frames x) (indexOfFrame frames y) + 1)%Z)).
  { intros w st w' st' x y.
    rewrite (selectFrame_selection w' st' y).
    rewrite selectFrame_frames.
    rewrite (selectFrame_selection w st x). cbv zeta. rewrite Hs.
    cbn [with_selectedFrameRange Segment.selectedFrameRange FrameRange.start
         FrameRange.end_ Segment.frames].
    fold frames.
    destruct (Z.ltb_spec (indexOfFrame frames y) (indexOfFrame frames x)) as [H|H];
      rewrite exportOf_pair;
      cbn [with_selectedFrameRange Segment.frames]; fold frames.
    - rewrite Z.min_comm, Z.max_comm. reflexivity.
    - reflexivity. }
  split.
  - apply Hone.
  - rewrite Hone. unfold span. rewrite Z.min_comm, Z.max_comm. reflexivity.
Qed.

Lemma export_independent_of_click_order_witness :
  let blank := with_selectedFrameRange picked (FrameRange.mk None None) in
  exportOf (selectFrame sunny fresh (Frame.id frame1)
              (selectFrame sunny fresh (Frame.id frame3) blank))
  = exportOf (selectFrame sunny fresh (Frame.id frame3)
                (selectFrame sunny fresh (Frame.id frame1) blank)).
Proof.
  cbv zeta.
  destruct (@export_independent_of_click_order
              (with_selectedFrameRange picked (FrameRange.mk None None))
              (Frame.id frame3) (Frame.id frame1)
              sunny fresh sunny fresh sunny fresh sunny fresh eq_refl)
    as [H1 H2].
  rewrite H1, H2. reflexivity.
Defined.

(** X20.  With both ends of the selection at frames that are present, the
    frames shown as inside the selection are exactly the frames
    [generateGif] exports: a frame sitting at the first position of its id
    is given the inside class if and only if its position lies between the
    two ends, it is then the exported frame at that offset, and it is given
    the outside class otherwise. *)
Theorem getFrameClassName_marks_exported_frames :
  forall segment a b k f,
    FrameRange.start (Segment.selectedFrameRange segment) = Some a ->
    FrameRange.end_ (Segment.selectedFrameRange segment) = Some b ->
    let frames := Segment.frames segment in
    let lo := Z.min (indexOfFrame frames a) (indexOfFrame frames b) in
    let hi := Z.max (indexOfFrame frames a) (indexOfFrame frames b) in
    (0 <= lo)%Z ->
    nth_error frames k = Some f ->
    indexOfFrame frames (Frame.id f) = Z.of_nat k ->
    (getFrameClassName (Frame.id f) segment = class_inside
     <-> (lo <= Z.of_nat k <= hi)%Z)
    /\ ((lo <= Z.of_nat k <= hi)%Z ->
        nth_error (selectedFrames segment a b) (k - Z.to_nat lo) = Some f)
    /\ (~ (lo <= Z.of_nat k <= hi)%Z ->
        getFrameClassName (Frame.id f) segment = class_outside).
Proof.
  intros segment a b k f Ha Hb frames lo hi Hlo Hk Hidx.
  assert (Hclass : getFrameClassName (Frame.id f) segment
                   = if ((lo <=? Z.of_nat k)%Z && (Z.of_nat k <=? hi)%Z)%bool
                     then class_inside else class_outside).
  { unfold getFrameClassName. cbv zeta. rewrite Ha, Hb.
    fold frames. rewrite Hidx. reflexivity. }
  assert (Hhi : (hi < Z.of_nat (List.length frames))%Z).
  { unfold hi, lo in *.
    destruct (Z.max_spec (indexOfFrame frames a) (indexOfFrame frames b))
      as [[_ E]|[_ E]]; rewrite E;
      apply findIndex_range; unfold indexOfFrame in *; lia. }
  split; [|split].
  - rewrite Hclass.
    destruct (Z.leb_spec lo (Z.of_nat k)) as [L1|L1];
      destruct (Z.leb_spec (Z.of_nat k) hi) as [L2|L2];
      cbn [andb]; split; intros H; try lia; try reflexivity; discriminate H.
  - intros Hin. unfold selectedFrames. fold frames lo hi.
    rewrite slice_span by lia.
    rewrite nth_error_span by lia.
    replace (Z.to_nat lo + (k - Z.to_nat lo))%nat with k by lia. exact Hk.
  - intros Hout. rewrite Hclass.
    destruct (Z.leb_spec lo (Z.of_nat k)) as [L1|L1];
      destruct (Z.leb_spec (Z.of_nat k) hi) as [L2|L2];
      cbn [andb]; try reflexivity. exfalso. apply Hout. lia.
Qed.

Lemma getFrameClassName_marks_exported_frames_witness :
  getFrameClassName (Frame.id frame3) finished = class_outside.
Proof.
  refine (proj2 (proj2 (@getFrameClassName_marks_exported_frames finished
            (Frame.id frame1) (Frame.id frame2) 2 frame3
            eq_refl eq_refl _ eq_refl _)) _).
  - vm_compute. discriminate.
  - vm_compute. reflexivity.
  - vm_compute. intros [_ H]. apply H. reflexivity.
Defined.

Lemma slice_stale : forall A (arr : list A), slice arr (-1) 0 = [].
Proof.
  intros A arr. unfold slice, slice_bound. cbn [Z.ltb Z.compare].
  rewrite Z.min_l by lia.
  replace (Z.to_nat (0 - Z.max (Z.of_nat (List.length arr) + -1) 0)) with 0%nat
    by lia.
  reflexivity.
Qed.

(** X21.  When neither id of the selection is found among the frames (a
    selection left over from frames that have been replaced), [generateGif]
    exports no frame at all but still runs: it passes on a [generating]
    segment and hands the encoder an empty list of images and the model an
    empty list of parts. *)
Theorem generateGif_stale_selection_exports_nothing :
  forall segment a b w st,
    FrameRange.start (Segment.selectedFrameRange segment) = Some a ->
    FrameRange.end_ (Segment.selectedFrameRange segment) = Some b ->
    indexOfFrame (Segment.frames segment) a = (-1)%Z ->
    indexOfFrame (Segment.frames segment) b = (-1)%Z ->
    selectedFrames segment a b = []
    /\ hd_error (updates (trace (generateGif segment w st)))
       = Some (generationStarted segment)
    /\ In (renderGif (workerScriptOf w st) [] frame_delay)
          (trace (generateGif segment w st))
    /\ In (generateContent gemini_model gemini_prompt [])
          (trace (generateGif segment w st)).
Proof.
  intros segment a b w st Ha Hb Hia Hib.
  assert (Hsel : selectedFrames segment a b = []).
  { unfold selectedFrames. rewrite Hia, Hib. apply slice_stale. }
  destruct (@generateGif_run segment a b w st Ha Hb) as [Hu _].
  destruct (@generateGif_calls segment a b w st Ha Hb) as [_ [Hg Hd]].
  cbv zeta in Hu, Hg, Hd. rewrite Hsel in Hg, Hd.
  split; [exact Hsel|]. split; [rewrite Hu; reflexivity|].
  split; [apply Hg | apply Hd]; repeat split.
Qed.

Lemma generateGif_stale_selection_exports_nothing_witness :
  let stale := extractionFinished finished [] in
  selectedFrames stale (Frame.id frame1) (Frame.id frame2) = []
  /\ In (renderGif "blob:worker" [] frame_delay)
        (trace (generateGif stale sunny fresh)).
Proof.
  cbv zeta.
  destruct (@generateGif_stale_selection_exports_nothing
              (extractionFinished finished []) (Frame.id frame1)
              (Frame.id frame2) sunny fresh eq_refl eq_refl eq_refl eq_refl)
    as [H1 [_ [H2 _]]].
  split; [exact H1 | exact H2].
Defined.

Lemma generateGif_settles_witness :
  after (generateGif picked sunny fresh) picked
  = generationDone picked "blob:old" "A cat jumps.".
Proof.
  refine (proj1 (@generateGif_settles picked (Frame.id frame1) (Frame.id frame2)
                   sunny fresh eq_refl eq_refl)
            "blob:old"%string "A cat jumps."%string _).
  vm_compute. reflexivity.
Defined.

(** ** VideoUploader.tsx *)

Lemma prefix_append : forall p s,
  String.prefix p s = true <-> exists rest, s = (p ++ rest)%string.
Proof.
  induction p as [|c p IH]; intros s.
  - split; [intros _; exists s; reflexivity | intros _; destruct s; reflexivity].
  - destruct s as [|c' s]; simpl.
    + split; [discriminate | intros [rest H]; discriminate H].
    + destruct (Ascii.ascii_dec c c') as [E|E].
      * subst c'. rewrite IH. split; intros [rest H]; exists rest.
        -- rewrite H. reflexivity.
        -- injection H as H'. exact H'.
      * split; [discriminate|].
        intros [rest H]. injection H as H1 H2. exfalso. apply E.
        symmetry. exact H1.
Qed.

(** X22.  A drop uploads a file only if it is the first file of the drop and
    its MIME type starts with [video/]; a drop whose first file is of
    another type uploads nothing, whatever else was dropped with it, while
    the file picker passes on the first file picked without looking at its
    type. *)
Theorem handleDrop_accepts_leading_video_only : forall files file,
  (VideoUploader.handleDrop files = Some file
   <-> hd_error files = Some file
       /\ exists subtype, VideoUploader.type file = ("video/" ++ subtype)%string)
  /\ (VideoUploader.handleFileChange files = Some file
      <-> hd_error files = Some file).
Proof.
  intros files file. split; [|reflexivity].
  unfold VideoUploader.handleDrop.
  destruct (hd_error files) as [first|]; [|split; [discriminate | intros [H _]; discriminate H]].
  destruct (String.prefix "video/" (VideoUploader.type first)) eqn:E.
  - split.
    + intros H. injection H as <-. split; [reflexivity|].
      apply prefix_append, E.
    + intros [H _]. exact H.
  - split; [discriminate|].
    intros [H Hsub]. injection H as <-.
    apply prefix_append in Hsub. rewrite Hsub in E. discriminate E.
Qed.

(** X23.  After [updateSegment], no segment with the id of the updated one
    differs from it: every entry that has this id, be there one or several,
    is the updated segment. *)
Theorem updateSegment_overwrites_every_match : forall u segments s,
  In s (updateSegment u segments) ->
  Segment.id s = Segment.id u ->
  s = u.
Proof.
  intros u segments s Hin Hid. unfold updateSegment in Hin.
  apply in_map_iff in Hin. destruct Hin as [s0 [Hs0 _]].
  destruct (Z.eqb_spec (Segment.id s0) (Segment.id u)) as [E|E].
  - symmetry. exact Hs0.
  - subst s. contradiction.
Qed.

Lemma updateSegment_overwrites_every_match_witness :
  nth 1 (updateSegment finished
           (addSegment 1700000000000%Z (handleVideoUpload 1700000000000%Z)))
    created
  = finished.
Proof.
  refine (@updateSegment_overwrites_every_match finished
            (addSegment 1700000000000%Z (handleVideoUpload 1700000000000%Z))
            _ _ eq_refl).
  right. left. reflexivity.
Defined.

(** ** The frames and states the handlers produce *)



Lemma coherent_kept : forall s u,
  Segment.status u = Segment.status s ->
  Segment.frames u = Segment.frames s ->
  Segment.gifUrl u = Segment.gifUrl s ->
  Segment.error u = Segment.error s ->
  Segment.gifDescription u = Segment.gifDescription s ->
  coherent s -> coherent u.
Proof.
  intros s u Hst Hfr Hurl Herr Hdesc [Hd [He Hi]].
  unfold coherent. rewrite Hst, Hfr, Hurl, Herr, Hdesc.
  split; [exact Hd | split; [exact He | exact Hi]].
Qed.

Lemma perform_keeps_coherent : forall a segment w st,
  coherent segment ->
  Forall coherent (updates (trace (perform a segment w st))).
Proof.
  intros a segment w st H.
  assert (Hrange : forall r, coherent (with_timeRange segment r))
    by (intros r; apply (@coherent_kept segment); auto).
  destruct a; simpl.
  - apply handleLoadedMetadata_updates. intros; apply Hrange.
  - apply handleRangeChange_emits; intros; apply Hrange.
  - apply extractFrames_emits; [|intros fs];
      (split; [|split]); intros E; discriminate E.
  - apply handleFrameSelection_emits. intros r.
    apply (@coherent_kept segment); auto.
  - apply generateGif_emits; [|intros url text|intros e];
      (split; [|split]); intros E; try discriminate E.
    + eexists; reflexivity.
    + exists e; reflexivity.
Qed.

(** X25.  Every value the segment of an editor can take is coherent with its
    status: when it is [done] it holds the URL of an animation, when it is
    [error] it holds a message that starts with "Failed to generate GIF. ",
    and while it is [idle] it holds no frames, no animation, no message and
    no description. *)
Theorem reachable_segments_are_coherent : forall ok now segment,
  reachable ok now segment -> coherent segment.
Proof.
  intros ok now segment H. induction H as [|s a w st u Hs IH Hw Hin].
  - split; [|split]; intros E; try discriminate E. repeat split.
  - pose proof (@perform_keeps_coherent a s w st IH) as Hall.
    rewrite Forall_forall in Hall. apply Hall, Hin.
Qed.

Lemma reachable_segments_are_coherent_witness : coherent failed.
Proof.
  exact (@reachable_segments_are_coherent (fun _ => True) 1700000000000%Z
           failed failed_reachable).
Defined.

(** X26.  A rejection settles the generation at once.  If the caption
    promise rejects while the encoder has not rejected (it may have
    resolved, or still be rendering), the segment becomes [error] with the
    caption's reason; likewise for the encoder; and when both reject, the
    reason kept is that of the promise that rejected first. *)
Theorem generateGif_first_rejection_wins : forall segment a b w st,
  FrameRange.start (Segment.selectedFrameRange segment) = Some a ->
  FrameRange.end_ (Segment.selectedFrameRange segment) = Some b ->
  let r := generateGif segment w st in
  let urls := map Frame.dataUrl (selectedFrames segment a b) in
  let gif := gif_outcome w (workerScriptOf w st) urls frame_delay in
  let caption := captionOutcome w urls in
  (forall e, caption = Rejected e -> (forall e', gif <> Rejected e') ->
     after r segment = generationFailed segment e)
  /\ (forall e, gif = Rejected e -> (forall e', caption <> Rejected e') ->
        after r segment = generationFailed segment e)
  /\ (forall e1 e2, gif = Rejected e1 -> caption = Rejected e2 ->
        after r segment
        = generationFailed segment (if second_rejects_first w then e2 else e1)).
Proof.
  intros segment a b w st Ha Hb r urls gif caption.
  destruct (@generateGif_run segment a b w st Ha Hb) as [Hu _].
  cbv zeta in Hu. fold r in Hu. unfold after. rewrite Hu. clear Hu.
  unfold joinOutcome. fold urls gif caption.
  split; [|split].
  - intros e Hc Hg. rewrite Hc.
    destruct gif as [url|e'|]; [reflexivity | exfalso; exact (Hg e' eq_refl) | reflexivity].
  - intros e Hg Hc. rewrite Hg.
    destruct caption as [text|e'|]; [reflexivity | exfalso; exact (Hc e' eq_refl) | reflexivity].
  - intros e1 e2 Hg Hc. rewrite Hg, Hc. reflexivity.
Qed.

Lemma generateGif_first_rejection_wins_witness :
  after (generateGif picked
           (studio (Some (clip five)) true Pending (Rejected NotAnError)) fresh)
    picked
  = generationFailed picked
      (ErrorObj "The AI model failed to generate a description.").
Proof.
  refine (proj1 (@generateGif_first_rejection_wins picked
                   (Frame.id frame1) (Frame.id frame2)
                   (studio (Some (clip five)) true Pending (Rejected NotAnError))
                   fresh eq_refl eq_refl)
            (ErrorObj "The AI model failed to generate a description.") _ _).
  - vm_compute. reflexivity.
  - intros e' H. vm_compute in H. discriminate H.
Defined.
